(** * Geospatial-Viewer: the AOI geometry normaliser and the WMS response cache

    A shallow embedding of the two pieces of server code that carry the
    design content of the repository:

    - [server/routes/aoiRoutes.js]: [closeRings], [simplifyRing] (with its
      inner [getSqSegDist] and [simplifyDP]), [simplifyGeometry] and
      [coordsOutOfBounds], together with the zod schema that guards them;
    - [server/index.js]: the [wmsCache] map, [cleanupCache], and the
      [/wms/feature-info] handler with its cache key.

    Coordinates and the numbers of a query are JavaScript numbers, that
    is IEEE 754 binary64 values: they are embedded as primitive floats,
    whose operations round exactly as the JavaScript ones do.  Timestamps
    ([Date.now()]) are integral numbers of milliseconds and are embedded
    in [Z].  Two things of the engine are parameters: the built-in
    [Number.prototype.toString], and the room of the call stack for the
    recursion of [simplifyDP]. *)

From Stdlib Require Import Ascii String DecimalString DecimalN.
From Stdlib Require Import Floats.
From Stdlib Require Import Bool Arith ZArith Lia.
From Stdlib Require Import List Permutation Sorted.
Import ListNotations.

Set Implicit Arguments.

(* ===================================================================== *)
(** * Part I. Definitions                                                 *)
(* ===================================================================== *)

(** ** Option as the exception monad

    A JavaScript [TypeError] raised inside a route handler ends in the
    handler's [catch]; the embedding returns [None] there. *)

Definition bindOpt {A B : Type} (m : option A) (k : A -> option B) : option B :=
  match m with
  | Some a => k a
  | None => None
  end.

(** [forEach]/[map] with a callback that may throw: the first exception
    aborts the traversal. *)
Fixpoint traverseOpt {A B : Type} (f : A -> option B) (l : list A) : option (list B) :=
  match l with
  | [] => Some []
  | a :: l' =>
      bindOpt (f a) (fun b => bindOpt (traverseOpt f l') (fun bs => Some (b :: bs)))
  end.

(** The last element of an array, [arr[arr.length - 1]], when there is one. *)
Fixpoint lastOpt {A : Type} (l : list A) : option A :=
  match l with
  | [] => None
  | [a] => Some a
  | _ :: l' => lastOpt l'
  end.

(* --------------------------------------------------------------------- *)
(** ** Geometry (server/routes/aoiRoutes.js)                              *)
(* --------------------------------------------------------------------- *)

Module Geo.

(** [coordPair = z.tuple([z.number(), z.number()])], read as [[lng, lat]]. *)
Definition coordPair : Type := (float * float)%type.

Definition ring : Type := list coordPair.

(** The three members of [geometrySchema]; the constructor is the [type]
    field and its argument the [coordinates] field. *)
Inductive geometry : Type :=
| Point (coordinates : coordPair)
| Polygon (coordinates : list ring)
| MultiPolygon (coordinates : list (list ring)).

(** JavaScript [a !== b] and [a === b] on numbers: IEEE comparison, so
    [NaN !== NaN] holds and [0 === -0] holds. *)
Definition strictNeq (a b : float) : bool := negb (a =? b)%float.
Definition strictEq (a b : float) : bool := (a =? b)%float.

(** *** The zod schema

    [z.number()] accepts every number except [NaN]; [ring] is an array of
    at least four pairs. *)
Definition zNumber (v : float) : bool := negb (is_nan v).

Definition coordPairSchema (p : coordPair) : bool :=
  zNumber (fst p) && zNumber (snd p).

Definition ringSchema (r : ring) : bool :=
  forallb coordPairSchema r && (4 <=? length r).

Definition geometrySchema (g : geometry) : bool :=
  match g with
  | Point p => coordPairSchema p
  | Polygon rings => forallb ringSchema rings
  | MultiPolygon polys => forallb (forallb ringSchema) polys
  end.

(** *** closeRings *)

(** The inner [ensureClosed]: [ring.push([first[0], first[1]])] when the
    first and last pairs differ.  On an empty array [ring[0]] is
    [undefined] and reading [first[0]] throws. *)
Definition ensureClosed (r : ring) : option ring :=
  match r, lastOpt r with
  | first :: _, Some last =>
      if strictNeq (fst first) (fst last) || strictNeq (snd first) (snd last)
      then Some (r ++ [(fst first, snd first)])
      else Some r
  | _, _ => None
  end.

Definition closeRings (g : geometry) : option geometry :=
  match g with
  | Polygon rings =>
      bindOpt (traverseOpt ensureClosed rings) (fun rs => Some (Polygon rs))
  | MultiPolygon polys =>
      bindOpt (traverseOpt (traverseOpt ensureClosed) polys)
              (fun ps => Some (MultiPolygon ps))
  | Point _ => Some g
  end.

(** *** simplifyRing *)

Definition getSqDist (p1 p2 : coordPair) : float :=
  let dx := (fst p1 - fst p2)%float in
  let dy := (snd p1 - snd p2)%float in
  (dx * dx + dy * dy)%float.

(** Squared distance from [p] to the segment [p1 p2]. *)
Definition getSqSegDist (p p1 p2 : coordPair) : float :=
  let x := fst p1 in
  let y := snd p1 in
  let dx := (fst p2 - x)%float in
  let dy := (snd p2 - y)%float in
  let xy :=
    if strictNeq dx 0%float || strictNeq dy 0%float then
      let t := (((fst p - x) * dx + (snd p - y) * dy) / (dx * dx + dy * dy))%float in
      if (1 <? t)%float then (fst p2, snd p2)
      else if (0 <? t)%float then ((x + dx * t)%float, (y + dy * t)%float)
      else (x, y)
    else (x, y) in
  let dx := (fst p - fst xy)%float in
  let dy := (snd p - snd xy)%float in
  (dx * dx + dy * dy)%float.

Section SimplifyDP.

(** The array being simplified and a value standing for a read outside
    it; [simplifyDP_reads_in_range] shows that no such read happens. *)
Variable points : list coordPair.
Variable undef : coordPair.

Definition at_ (i : nat) : coordPair := nth i points undef.

(** One iteration of the [for] loop of [simplifyDP]; the state is
    [(maxSqDist, index)], with [index] undefined before the first hit. *)
Definition scanStep (first last : nat) (st : float * option nat) (i : nat)
  : float * option nat :=
  let sqDist := getSqSegDist (at_ i) (at_ first) (at_ last) in
  if (fst st <? sqDist)%float then (sqDist, Some i) else st.

(** [for (let i = first + 1; i < last; i++)]. *)
Definition scan (first last : nat) (sqTol : float) : float * option nat :=
  fold_left (scanStep first last) (seq (S first) (last - S first)) (sqTol, None).

(** Truthiness of [index]: [undefined] and [0] are falsy. *)
Definition truthy (index : option nat) : bool :=
  match index with
  | Some i => negb (i =? 0)
  | None => false
  end.

(** [simplifyDP(points, first, last, sqTol, simplified)], as the array
    it leaves when it returns; the array [simplified] it pushes to is
    threaded through.  The recursion is on the width [last - first],
    which [fuel] bounds. *)
Fixpoint simplifyDP (fuel : nat) (first last : nat) (sqTol : float)
         (simplified : list coordPair) : list coordPair :=
  match fuel with
  | O => simplified
  | S fuel' =>
      let (maxSqDist, index) := scan first last sqTol in
      if (sqTol <? maxSqDist)%float && truthy index then
        match index with
        | Some idx =>
            let s1 := if 1 <? idx - first
                      then simplifyDP fuel' first idx sqTol simplified
                      else simplified in
            let s2 := s1 ++ [at_ idx] in
            if 1 <? last - idx
            then simplifyDP fuel' idx last sqTol s2
            else s2
        | None => simplified
        end
      else simplified
  end.

(** The same function on the engine's call stack.  Every activation of
    [simplifyDP] takes a frame, and the engine raises a [RangeError]
    ("Maximum call stack size exceeded") at a call for which no frame is
    left; [frames] is the number of nested activations the stack has room
    for when the call is made.  [None] is that error; otherwise the
    result is the array the call leaves behind. *)
Fixpoint simplifyDPOnStack (frames : nat) (first last : nat) (sqTol : float)
         (simplified : list coordPair) : option (list coordPair) :=
  match frames with
  | O => None
  | S frames' =>
      let (maxSqDist, index) := scan first last sqTol in
      if (sqTol <? maxSqDist)%float && truthy index then
        match index with
        | Some idx =>
            bindOpt (if 1 <? idx - first
                     then simplifyDPOnStack frames' first idx sqTol simplified
                     else Some simplified)
                    (fun s1 =>
                       let s2 := s1 ++ [at_ idx] in
                       if 1 <? last - idx
                       then simplifyDPOnStack frames' idx last sqTol s2
                       else Some s2)
        | None => Some simplified
        end
      else Some simplified
  end.

End SimplifyDP.

(** The local [ring] of [simplifyRing]: the input, with its first point
    pushed at the end when the first and last pairs differ. *)
Definition closeIfOpen (points : ring) : ring :=
  match points, lastOpt points with
  | first :: _, Some last =>
      if strictEq (fst first) (fst last) && strictEq (snd first) (snd last)
      then points
      else points ++ [first]
  | _, _ => points
  end.

(** The local [simplified] of [simplifyRing] once it is complete:
    [ring[0]], what [simplifyDP] pushes, then [ring[ring.length - 1]]. *)
Definition reduce (ring : list coordPair) (sqTol : float) : list coordPair :=
  match ring with
  | [] => []
  | r0 :: _ =>
      let simplified := [nth 0 ring r0] in
      let simplified :=
        simplifyDP ring r0 (length ring) 0 (length ring - 1) sqTol simplified in
      simplified ++ [nth (length ring - 1) ring r0]
  end.

Definition simplifyRing (points : ring) (tolerance : float) : ring :=
  if length points <=? 4 then points
  else
    let sqTol := (tolerance * tolerance)%float in
    (* ensure ring closed *)
    let ring := closeIfOpen points in
    let simplified := reduce ring sqTol in
    (* keep at least 4 points (including closure) *)
    if length simplified <? 4 then ring else simplified.

(** [toleranceDeg = 0.0001], as the nearest binary64 value. *)
Definition defaultToleranceDeg : float := 0x1.a36e2eb1c432dp-14%float.

Definition simplifyGeometry (g : geometry) (toleranceDeg : float) : geometry :=
  match g with
  | Polygon rings =>
      Polygon (map (fun r => simplifyRing r toleranceDeg) rings)
  | MultiPolygon polys =>
      MultiPolygon (map (map (fun r => simplifyRing r toleranceDeg)) polys)
  | Point _ => g
  end.

(** [simplifyRing] and [simplifyGeometry] with the call stack of
    [simplifyDPOnStack]: the [RangeError] leaves [simplifyRing], the
    [map] callbacks and [simplifyGeometry] alike, since none of them
    catches. *)
Definition reduceOnStack (frames : nat) (ring : list coordPair) (sqTol : float)
  : option (list coordPair) :=
  match ring with
  | [] => Some []
  | r0 :: _ =>
      let simplified := [nth 0 ring r0] in
      bindOpt (simplifyDPOnStack ring r0 frames 0 (length ring - 1) sqTol simplified)
              (fun simplified => Some (simplified ++ [nth (length ring - 1) ring r0]))
  end.

Definition simplifyRingOnStack (frames : nat) (points : ring) (tolerance : float)
  : option ring :=
  if length points <=? 4 then Some points
  else
    let sqTol := (tolerance * tolerance)%float in
    let ring := closeIfOpen points in
    bindOpt (reduceOnStack frames ring sqTol)
            (fun simplified =>
               Some (if length simplified <? 4 then ring else simplified)).

Definition simplifyGeometryOnStack (frames : nat) (g : geometry) (toleranceDeg : float)
  : option geometry :=
  match g with
  | Polygon rings =>
      bindOpt (traverseOpt (fun r => simplifyRingOnStack frames r toleranceDeg) rings)
              (fun rs => Some (Polygon rs))
  | MultiPolygon polys =>
      bindOpt (traverseOpt
                 (traverseOpt (fun r => simplifyRingOnStack frames r toleranceDeg)) polys)
              (fun ps => Some (MultiPolygon ps))
  | Point _ => Some g
  end.

(** *** coordsOutOfBounds *)

(** The inner [ok]; [typeof] is ["number"] for every float. *)
Definition ok (lng lat : float) : bool :=
  (-180 <=? lng)%float && (lng <=? 180)%float &&
  (-90 <=? lat)%float && (lat <=? 90)%float.

Definition pairBad (p : coordPair) : bool := negb (ok (fst p) (snd p)).

Definition coordsOutOfBounds (g : geometry) : bool :=
  match g with
  | Point p => pairBad p
  | Polygon rings => existsb (fun r => existsb pairBad r) rings
  | MultiPolygon polys =>
      existsb (fun poly => existsb (fun r => existsb pairBad r) poly) polys
  end.

(** The spec's [validateBounds] is the negation the handler tests. *)
Definition validateBounds (g : geometry) : bool := negb (coordsOutOfBounds g).

(** *** Vocabulary of the statements *)

(** The closure test both [ensureClosed] and [simplifyRing] apply:
    [first[0] === last[0] && first[1] === last[1]]. *)
Definition samePair (p q : coordPair) : bool :=
  strictEq (fst p) (fst q) && strictEq (snd p) (snd q).

Definition ringClosed (r : ring) : bool :=
  match r, lastOpt r with
  | first :: _, Some last => samePair first last
  | _, _ => false
  end.

Definition ringsOf (g : geometry) : list ring :=
  match g with
  | Point _ => []
  | Polygon rings => rings
  | MultiPolygon polys => concat polys
  end.

Definition pairsOf (g : geometry) : list coordPair :=
  match g with
  | Point p => [p]
  | Polygon rings => concat rings
  | MultiPolygon polys => concat (concat polys)
  end.

(** [-180 <= lng <= 180] and [-90 <= lat <= 90], as comparisons of numbers. *)
Definition inBounds (p : coordPair) : Prop :=
  (-180 <=? fst p)%float = true /\ (fst p <=? 180)%float = true /\
  (-90 <=? snd p)%float = true /\ (snd p <=? 90)%float = true.

(** *** The [POST /aoi] pipeline: close, simplify, check bounds *)

Inductive outcome : Type :=
| Accepted (g : geometry)      (* handed to [Aoi.create] *)
| OutOfBounds                  (* 400, "Coordinates out of bounds" *)
| ServerError.                 (* an exception reached the [catch]: 500 *)

(** [frames] is the room the call stack has for nested activations of
    [simplifyDP] where [simplifyRing] calls it, which is at one depth for
    all the rings of a geometry.  Two exceptions can reach the [catch]:
    the [TypeError] of [closeRings] and the [RangeError] of a recursion
    that is deeper than the stack. *)
Definition normalize (frames : nat) (g : geometry) : outcome :=
  match closeRings g with
  | None => ServerError
  | Some g1 =>
      match simplifyGeometryOnStack frames g1 defaultToleranceDeg with
      | None => ServerError
      | Some g2 =>
          if coordsOutOfBounds g2 then OutOfBounds else Accepted g2
      end
  end.

End Geo.

(* --------------------------------------------------------------------- *)
(** ** The WMS response cache (server/index.js)                           *)
(* --------------------------------------------------------------------- *)

Module Cache.

(** The upstream JSON body, kept as an opaque blob. *)
Definition payload : Type := string.

(** The object stored under a key: [{ data, timestamp }]. *)
Record entry : Type := { data : payload; timestamp : Z }.

(** *** A JavaScript [Map] with string keys

    A [Map] iterates in insertion order, and [set] on a present key keeps
    the key's position; both matter to [cleanupCache], which sorts a
    snapshot of the entries with a stable sort.  The map is therefore a
    list of bindings with pairwise distinct keys, oldest insertion first. *)
Definition jsMap : Type := list (string * entry).

Definition keys (m : jsMap) : list string := map fst m.

Fixpoint mapGet (k : string) (m : jsMap) : option entry :=
  match m with
  | [] => None
  | (k', v) :: m' => if String.eqb k' k then Some v else mapGet k m'
  end.

Fixpoint mapSet (k : string) (v : entry) (m : jsMap) : jsMap :=
  match m with
  | [] => [(k, v)]
  | (k', v') :: m' =>
      if String.eqb k' k then (k, v) :: m' else (k', v') :: mapSet k v m'
  end.

Definition mapDelete (k : string) (m : jsMap) : jsMap :=
  filter (fun kv => negb (String.eqb (fst kv) k)) m.

Definition mapSize (m : jsMap) : nat := length m.

(** *** [Array.prototype.sort] with a comparator

    The sort is stable; a negative or zero comparison leaves [a] before
    [b].  A stable sort has one possible result, computed here by
    insertion. *)
Section Sort.
Variable A : Type.
Variable cmp : A -> A -> Z.

Fixpoint insertBy (a : A) (l : list A) : list A :=
  match l with
  | [] => [a]
  | b :: l' => if (cmp a b <=? 0)%Z then a :: b :: l' else b :: insertBy a l'
  end.

Fixpoint sortBy (l : list A) : list A :=
  match l with
  | [] => []
  | a :: l' => insertBy a (sortBy l')
  end.

(** The comparator leaves [a] before [b]. *)
Definition before (a b : A) : Prop := (cmp a b <= 0)%Z.
End Sort.

(** *** Constants *)

Definition CACHE_TTL : Z := 5 * 60 * 1000.       (* 5 minutes *)
Definition MAX_CACHE_SIZE : nat := 1000.         (* Maximum number of cached items *)

(** *** cleanupCache

    [now] is the value [Date.now()] returns at the start of the pass. *)
Definition isExpired (now : Z) (kv : string * entry) : bool :=
  (now - timestamp (snd kv) >? CACHE_TTL)%Z.

Definition isFresh (now : Z) (kv : string * entry) : bool :=
  (now - timestamp (snd kv) <=? CACHE_TTL)%Z.

Definition byTimestamp (a b : string * entry) : Z :=
  (timestamp (snd a) - timestamp (snd b))%Z.

(** The first loop: delete the expired keys of the snapshot. *)
Definition removeExpired (now : Z) (entries : list (string * entry)) (m : jsMap) : jsMap :=
  fold_left (fun m kv => if isExpired now kv then mapDelete (fst kv) m else m) entries m.

(** [toRemove.forEach(([key]) => wmsCache.delete(key))]. *)
Definition deleteAll (toRemove : list (string * entry)) (m : jsMap) : jsMap :=
  fold_left (fun m kv => mapDelete (fst kv) m) toRemove m.

Definition cleanupCache (now : Z) (wmsCache : jsMap) : jsMap :=
  let entries := wmsCache in
  (* Remove expired entries *)
  let wmsCache := removeExpired now entries wmsCache in
  (* If still too many entries, remove oldest ones *)
  if MAX_CACHE_SIZE <? mapSize wmsCache then
    let sortedEntries := sortBy byTimestamp (filter (isFresh now) entries) in
    let toRemove := firstn (mapSize wmsCache - MAX_CACHE_SIZE) sortedEntries in
    deleteAll toRemove wmsCache
  else wmsCache.

(** *** The [/wms/feature-info] handler *)

(** The query after [featureInfoSchema.parse].  [z.coerce.number()]
    leaves [x], [y], [width] and [height] as numbers, binary64 values;
    the schema has found them integral, [x] and [y] at least 0, [width]
    and [height] at least 1. *)
Record featureInfo : Type := {
  x : float;
  y : float;
  bbox : string;
  width : float;
  height : float;
  layers : string
}.

(** The decimal digits of a non-negative integer: what a template literal
    prints for a number that is an integer below [2^53].  The two numbers
    printed this way are of that kind: [response.status] and [Date.now()]. *)
Definition numToString (n : N) : string := NilEmpty.string_of_uint (N.to_uint n).

(** The cache probe [cached && Date.now() - cached.timestamp < CACHE_TTL];
    a stored object is always truthy.  This is the spec's [get]. *)
Definition cacheGet (now : Z) (key : string) (wmsCache : jsMap) : option payload :=
  match mapGet key wmsCache with
  | Some cached =>
      if (now - timestamp cached <? CACHE_TTL)%Z then Some (data cached) else None
  | None => None
  end.

(** [wmsCache.set(cacheKey, { data, timestamp: Date.now() })]: the spec's
    [put].  Nothing else happens at an insertion. *)
Definition cachePut (now : Z) (key : string) (d : payload) (wmsCache : jsMap) : jsMap :=
  mapSet key {| data := d; timestamp := now |} wmsCache.

(** What the awaited upstream call turns out to be. *)
Inductive upstream : Type :=
| FetchRejects (message : string)               (* [fetch] throws *)
| ResponseNotOk (status : N) (statusText : string)
| JsonRejects (message : string)                (* [response.json()] throws *)
| ResponseOk (body : payload).

Inductive reply : Type :=
| ReplyJson (body : payload)                    (* [res.json(...)] *)
| Reply400                                      (* invalid query parameters *)
| Reply500 (message : string).                  (* failed to fetch feature information *)

(** The two awaits, [fetch(...)] with the [response.ok] test and then
    [response.json()]: either an error is thrown, whose message is kept,
    or the parsed body is there. *)
Definition awaitUpstream (up : upstream) : string + payload :=
  match up with
  | FetchRejects message => inl message
  | ResponseNotOk status statusText =>
      inl ("WMS request failed: " ++ numToString status ++ " " ++ statusText)%string
  | JsonRejects message => inl message
  | ResponseOk body => inr body
  end.

Section WithNumberToString.

(** The built-in [Number.prototype.toString]: what a template literal and
    [x.toString()] apply to the numbers of the query.  It prints the
    shortest decimal numeral that reads back as the same binary64 value,
    in exponent notation from [1e+21] on; the embedding takes it as it
    is, and the statements say what they need of it. *)
Variable numberToString : float -> string.

(** [`${layers}-${x}-${y}-${bbox}-${width}-${height}`] *)
Definition cacheKey (q : featureInfo) : string :=
  (layers q ++ "-" ++ numberToString (x q) ++ "-" ++ numberToString (y q) ++ "-" ++
   bbox q ++ "-" ++ numberToString (width q) ++ "-" ++ numberToString (height q))%string.

(** The parameters of the upstream request that come from the query (the
    others are constants): [new URLSearchParams({ ..., layers, query_layers:
    layers, ..., x: x.toString(), y: y.toString(), bbox, width:
    width.toString(), height: height.toString(), ... })]. *)
Definition upstreamParams (q : featureInfo) : list (string * string) :=
  [("layers", layers q); ("query_layers", layers q);
   ("x", numberToString (x q)); ("y", numberToString (y q));
   ("bbox", bbox q);
   ("width", numberToString (width q)); ("height", numberToString (height q))]%string.

(** One request.  [query] is [None] when the schema rejects the query
    string; [tProbe] and [tStore] are the two readings of [Date.now()]. *)
Definition featureInfoHandler (query : option featureInfo) (tProbe tStore : Z)
           (up : upstream) (wmsCache : jsMap) : reply * jsMap :=
  match query with
  | None => (Reply400, wmsCache)
  | Some q =>
      (* Create cache key *)
      let key := cacheKey q in
      (* Check cache *)
      match cacheGet tProbe key wmsCache with
      | Some body => (ReplyJson body, wmsCache)
      | None =>
          match awaitUpstream up with
          | inl message => (Reply500 message, wmsCache)        (* the [catch] *)
          | inr body =>
              (* Cache the response *)
              (ReplyJson body, cachePut tStore key body wmsCache)
          end
      end
  end.

End WithNumberToString.

(** *** Vocabulary of the statements *)

(** An entry is live at [now] when a probe would return it. *)
Definition isLive (now : Z) (kv : string * entry) : bool :=
  (now - timestamp (snd kv) <? CACHE_TTL)%Z.

Definition liveCount (now : Z) (m : jsMap) : nat := length (filter (isLive now) m).

(** [a] was stored no later than [b]. *)
Definition olderEq (a b : string * entry) : Prop :=
  (timestamp (snd a) <= timestamp (snd b))%Z.

(** Whether an array of entries has an entry under the key of [kv]. *)
Definition keyIn (l : list (string * entry)) (kv : string * entry) : bool :=
  existsb (fun e => String.eqb (fst e) (fst kv)) l.

(** Two pieces of a key on either side of one separator. *)
Definition join (a b : string) : string := (a ++ String "-" b)%string.

Fixpoint hasHyphen (s : string) : bool :=
  match s with
  | EmptyString => false
  | String c s' => Ascii.eqb c "-" || hasHyphen s'
  end.

(** A character from ["0"] to ["9"]. *)
Definition isDigit (c : ascii) : bool :=
  (48 <=? nat_of_ascii c) && (nat_of_ascii c <=? 57).

(** Whether a ["-"] comes right after a digit somewhere in [s]. *)
Fixpoint digitThenHyphen (s : string) : bool :=
  match s with
  | String a (String b _ as s') =>
      (isDigit a && Ascii.eqb b "-") || digitThenHyphen s'
  | _ => false
  end.

Fixpoint endsWithDigit (s : string) : bool :=
  match s with
  | EmptyString => false
  | String c EmptyString => isDigit c
  | String _ s' => endsWithDigit s'
  end.

(** What the numeral of a non-negative integer looks like, in plain and
    in exponent notation ([1e+21]): no ["-"], and a digit at the end. *)
Definition numeral (s : string) : bool := negb (hasHyphen s) && endsWithDigit s.

(** The numbers of a query. *)
Definition numbersOf (q : featureInfo) : list float :=
  [x q; y q; width q; height q].

(** For the examples, which have small numbers: the integer a binary64
    value holds, and its decimal digits.  On the integers from 0 to
    [2^53] that is the numeral [Number.prototype.toString] prints; the
    examples pass it for [numberToString], and no statement about all
    queries rests on it. *)
Definition integerOf (v : float) : N :=
  match Prim2SF v with
  | S754_finite false m e =>
      if (0 <=? e)%Z then N.shiftl (Npos m) (Z.to_N e)
      else N.shiftr (Npos m) (Z.to_N (- e))
  | _ => 0%N
  end.

Definition integerToString (v : float) : string := numToString (integerOf v).

(** A run of the server: the [i]-th client asks for pixel [i] of one tile
    ([i] a small integer, which a binary64 value holds exactly), and the
    upstream answers every request. *)
Definition requestAt (i : nat) : featureInfo :=
  {| x := of_uint63 (Uint63.of_Z (Z.of_nat i)); y := 0; bbox := "0,0,1,1"%string;
     width := 256; height := 256; layers := "roads"%string |}.

Definition serve (numberToString : float -> string) (times : nat -> Z)
           (wmsCache : jsMap) (i : nat) : jsMap :=
  snd (featureInfoHandler numberToString (Some (requestAt i)) (times i) (times i)
                          (ResponseOk "{}"%string) wmsCache).

Definition burst (numberToString : float -> string) (n : nat) (times : nat -> Z)
  : jsMap :=
  fold_left (serve numberToString times) (seq 0 n) [].

End Cache.

(* --------------------------------------------------------------------- *)
(** ** Order-preserving selection                                         *)
(* --------------------------------------------------------------------- *)

(** [Subseq l1 l2]: [l1] is [l2] with some elements left out, the others
    in their order. *)
Inductive Subseq (A : Type) : list A -> list A -> Prop :=
| Subseq_nil : Subseq [] []
| Subseq_skip (a : A) (l1 l2 : list A) : Subseq l1 l2 -> Subseq l1 (a :: l2)
| Subseq_keep (a : A) (l1 l2 : list A) : Subseq l1 l2 -> Subseq (a :: l1) (a :: l2).

(** The elements of an array at the positions [a], ..., [b - 1]. *)
Definition slice (A : Type) (a b : nat) (l : list A) : list A :=
  firstn (b - a) (skipn a l).
Arguments slice : clear implicits.

(** A binary64 value that is a number: neither [NaN] nor infinite. *)
Definition SFnumber (s : spec_float) : bool :=
  match s with
  | S754_zero _ | S754_finite _ _ _ => true
  | _ => false
  end.

(* --------------------------------------------------------------------- *)
(** ** The AOI listing route (server/routes/aoiRoutes.js, [GET /aoi])     *)
(* --------------------------------------------------------------------- *)

Module AoiList.

(** [s.split(sep)] for a one-character separator: the pieces between the
    separators, so one piece more than there are separators, and [[""]]
    for the empty string. *)
Fixpoint splitOn (sep : ascii) (s : string) : list string :=
  match s with
  | EmptyString => [EmptyString]
  | String c s' =>
      if Ascii.eqb c sep then EmptyString :: splitOn sep s'
      else match splitOn sep s' with
           | piece :: rest => String c piece :: rest
           | [] => [String c EmptyString]
           end
  end.

Fixpoint countChar (sep : ascii) (s : string) : nat :=
  match s with
  | EmptyString => 0
  | String c s' => (if Ascii.eqb c sep then 1 else 0) + countChar sep s'
  end.

(** What the route does before it queries the store. *)
Inductive outcome : Type :=
| InvalidBbox                                     (* 400, "Invalid bbox parameter" *)
| Find (userIds : list string) (intersects : option Geo.geometry).

Section WithNumber.

(** The built-in conversion [Number(piece)]; it yields [NaN] for a piece
    that is not a numeric literal. *)
Variable Number : string -> float.

(** [bbox.split(",").map(Number)] *)
Definition bboxParts (bbox : string) : list float :=
  map Number (splitOn "," bbox).

(** The polygon of [$geoIntersects]. *)
Definition bboxPolygon (minLng minLat maxLng maxLat : float) : Geo.geometry :=
  Geo.Polygon [[(minLng, minLat); (maxLng, minLat); (maxLng, maxLat);
                (minLng, maxLat); (minLng, minLat)]].

(** [bbox] is [req.query.bbox]: absent, or a string (the empty string is
    falsy and counts as absent). *)
Definition listQuery (userId : string) (bbox : option string) : outcome :=
  let userIds := [userId; "public"%string] in
  match bbox with
  | None | Some EmptyString => Find userIds None
  | Some b =>
      let parts := bboxParts b in
      if negb (length parts =? 4) || existsb is_nan parts then InvalidBbox
      else
        match parts with
        | [minLng; minLat; maxLng; maxLat] =>
            Find userIds (Some (bboxPolygon minLng minLat maxLng maxLat))
        | _ => InvalidBbox            (* not reached: the length is 4 *)
        end
  end.

End WithNumber.

End AoiList.

(* --------------------------------------------------------------------- *)
(** ** Authentication middleware (server/middleware/auth.js)              *)
(* --------------------------------------------------------------------- *)

Module Auth.

(** The two facts of [process.env] the middleware reads:
    [NODE_ENV === 'development'] and whether [CLERK_JWT_KEY] is set. *)
Record env : Type := { development : bool; jwtKeySet : bool }.

(** A thrown error: its [message], and what [String(err)] gives. *)
Record jsError : Type := { message : string; asString : string }.

(** What [verifyToken(token, ...)] does: it throws at once, or its promise
    resolves with the decoded claims (of which [sub] is read), or the
    promise rejects. *)
Inductive verification : Type :=
| VerifyThrows (err : jsError)
| Resolves (sub : string)
| Rejects (err : jsError).

Inductive result : Type :=
| Next (userId : string)                              (* [req.userId = ...; next()] *)
| Status401 (error : string) (details : option string).

(** [a || b] on strings: the empty string is falsy. *)
Definition orElse (a b : string) : string :=
  match a with
  | EmptyString => b
  | _ => a
  end.

(** [s.substring(n)]: [s] without its first [n] characters. *)
Fixpoint dropChars (n : nat) (s : string) : string :=
  match n, s with
  | O, _ => s
  | S n', String _ s' => dropChars n' s'
  | S _, EmptyString => EmptyString
  end.

(** [`user_${token.substring(0, 8)}_${Date.now()}`] *)
Definition devUserId (token : string) (now : N) : string :=
  ("user_" ++ substring 0 8 token ++ "_" ++ Cache.numToString now)%string.

(** [authHeader] is [req.headers.authorization], [None] when the header is
    absent; [now] is [Date.now()]. *)
Definition requireAuth (e : env) (now : N) (authHeader : option string)
           (verifyToken : string -> verification) : result :=
  match authHeader with
  | None | Some EmptyString =>
      Status401 "Missing or invalid authorization header" None
  | Some header =>
      if negb (prefix "Bearer " header)
      then Status401 "Missing or invalid authorization header" None
      else
        let token := dropChars 7 header in       (* Remove 'Bearer ' prefix *)
        match token with
        | EmptyString => Status401 "Empty token" None
        | _ =>
            if development e || negb (jwtKeySet e)
            then Next (devUserId token now)
            else
              match verifyToken token with
              | VerifyThrows err =>
                  Status401 "Authentication failed"
                            (Some (orElse (message err) "Unknown error"))
              | Resolves sub => Next sub
              | Rejects jwtError =>
                  (* Fallback for development: accept any non-empty token *)
                  if development e
                  then Next ("user_" ++ substring 0 8 token)%string
                  else Status401 "Invalid or expired token" (Some (message jwtError))
              end
        end
  end.

Definition getAuthToken (e : env) (now : N) (authHeader : option string)
           (verifyToken : string -> verification) : result :=
  match authHeader with
  | None | Some EmptyString =>
      Status401 "Missing or invalid authorization header" None
  | Some header =>
      if negb (prefix "Bearer " header)
      then Status401 "Missing or invalid authorization header" None
      else
        let token := dropChars 7 header in
        if development e || negb (jwtKeySet e)
        then Next (devUserId token now)
        else
          match verifyToken token with
          | VerifyThrows err | Rejects err =>
              Status401 "Token verification failed"
                        (Some (orElse (message err) (asString err)))
          | Resolves sub => Next sub
          end
  end.

End Auth.

(* --------------------------------------------------------------------- *)
(** ** The drawing client (the map component's [CREATED] handler)         *)
(* --------------------------------------------------------------------- *)

Module Client.

(** "Ensure polygon ring is closed": only [coordinates[0]] is looked at,
    and an empty ring is left alone. *)
Definition closeOuterRing (g : Geo.geometry) : Geo.geometry :=
  match g with
  | Geo.Polygon (ring :: holes) =>
      match ring, lastOpt ring with
      | first :: _, Some last =>
          if Geo.strictNeq (fst first) (fst last) || Geo.strictNeq (snd first) (snd last)
          then Geo.Polygon ((ring ++ [first]) :: holes)
          else g
      | _, _ => g
      end
  | _ => g
  end.

End Client.

(* --------------------------------------------------------------------- *)
(** ** The server over time (server/index.js)                             *)
(* --------------------------------------------------------------------- *)

Module Server.

(** Between two [await]s nothing else runs, so the cache changes in
    atomic steps of two kinds: the [wmsCache.set] that ends a request
    answered by the upstream, and a run of the [setInterval] callback.
    (A probe changes nothing.) *)
Inductive event : Type :=
| Store (now : Z) (key : string) (body : Cache.payload)
| Sweep (now : Z).

Definition step (wmsCache : Cache.jsMap) (ev : event) : Cache.jsMap :=
  match ev with
  | Store now key body => Cache.cachePut now key body wmsCache
  | Sweep now => Cache.cleanupCache now wmsCache
  end.

Definition run (events : list event) (wmsCache : Cache.jsMap) : Cache.jsMap :=
  fold_left step events wmsCache.

Definition isStore (ev : event) : bool :=
  match ev with
  | Store _ _ _ => true
  | Sweep _ => false
  end.

End Server.

(* ===================================================================== *)
(** * Part II. Geometry: properties                                       *)
(* ===================================================================== *)

Section ListFacts.
Variable A : Type.

Lemma lastOpt_snoc (l : list A) (a : A) : lastOpt (l ++ [a]) = Some a.
Proof.
  induction l as [|b l IH]; [reflexivity|].
  simpl. rewrite IH. destruct (l ++ [a]) eqn:E; [|reflexivity].
  destruct l; discriminate.
Qed.

Lemma lastOpt_cons (b : A) (l : list A) :
  l <> [] -> lastOpt (b :: l) = lastOpt l.
Proof. destruct l; [congruence|reflexivity]. Qed.

Lemma lastOpt_nth (l : list A) (d : A) :
  l <> [] -> lastOpt l = Some (nth (length l - 1) l d).
Proof.
  induction l as [|b l IH]; [congruence|intros _].
  destruct l as [|c l]; [reflexivity|].
  rewrite lastOpt_cons by discriminate.
  rewrite IH by discriminate. simpl. now rewrite Nat.sub_0_r.
Qed.

Lemma lastOpt_none (l : list A) : lastOpt l = None -> l = [].
Proof.
  induction l as [|b l IH]; [reflexivity|].
  destruct l; [discriminate|]. intros H.
  rewrite lastOpt_cons in H by discriminate. now apply IH in H.
Qed.

(** A traversal that never throws is a [map]. *)
Lemma traverseOpt_total (B : Type) (f : A -> option B) (g : A -> B) (l : list A) :
  Forall (fun a => f a = Some (g a)) l -> traverseOpt f l = Some (map g l).
Proof.
  induction 1 as [|a l Ha _ IH]; [reflexivity|].
  simpl. now rewrite Ha, IH.
Qed.
End ListFacts.

(** ** The recursion of [simplifyDP] *)

Import Geo.

Section SimplifyDPFacts.
Variable points : list coordPair.
Variable undef : coordPair.

(** The loop leaves in [index] a position strictly between [first] and
    [last], or nothing. *)
Lemma scan_fold_range (first last : nat) (idxs : list nat) (st : float * option nat) :
  Forall (fun i => first < i < last) idxs ->
  (forall i, snd st = Some i -> first < i < last) ->
  forall i, snd (fold_left (scanStep points undef first last) idxs st) = Some i ->
            first < i < last.
Proof.
  revert st; induction idxs as [|j idxs IH]; simpl; intros st Hall Hst; [exact Hst|].
  inversion Hall; subst. apply IH; [assumption|].
  unfold scanStep. destruct (_ <? _)%float; simpl; [|exact Hst].
  intros i Hi. now inversion Hi; subst.
Qed.

Lemma scan_index_range (first last : nat) (sqTol m : float) (i : nat) :
  scan points undef first last sqTol = (m, Some i) -> first < i < last.
Proof.
  intros H. apply (@scan_fold_range first last (seq (S first) (last - S first)) (sqTol, None)).
  - apply Forall_forall. intros j Hj. apply in_seq in Hj. lia.
  - simpl; discriminate.
  - unfold scan in H. now rewrite H.
Qed.

(** So [index] is never the falsy [0]: the test [&& index] only asks
    whether the loop found a point. *)
Lemma scan_index_truthy (first last : nat) (sqTol m : float) (i : nat) :
  scan points undef first last sqTol = (m, Some i) -> truthy (Some i) = true.
Proof.
  intros H. apply scan_index_range in H. simpl.
  destruct i; [lia|reflexivity].
Qed.

(** [simplifyDP] only pushes: the array it is given is a prefix of the
    array it leaves. *)
Lemma simplifyDP_pushes (fuel first last : nat) (sqTol : float) (s : list coordPair) :
  simplifyDP points undef fuel first last sqTol s =
  s ++ simplifyDP points undef fuel first last sqTol [].
Proof.
  revert first last s; induction fuel as [|fuel IH]; intros first last s; simpl.
  - now rewrite app_nil_r.
  - destruct (scan points undef first last sqTol) as [m index].
    destruct ((sqTol <? m)%float && truthy index); [|now rewrite app_nil_r].
    destruct index as [idx|]; [|now rewrite app_nil_r].
    destruct (1 <? idx - first), (1 <? last - idx);
      repeat first [ rewrite (IH idx last (_ ++ [_]))
                   | rewrite (IH first idx s) ];
      simpl; now rewrite <- ?app_assoc.
Qed.

(** Enough fuel: any two budgets that cover the width [last - first]
    give the same run, so the budget [simplifyRing] passes (the length of
    the ring) never runs out. *)
Lemma simplifyDP_fuel_enough (fuel1 fuel2 first last : nat) (sqTol : float)
      (s : list coordPair) :
  last - first <= fuel1 -> last - first <= fuel2 ->
  simplifyDP points undef fuel1 first last sqTol s =
  simplifyDP points undef fuel2 first last sqTol s.
Proof.
  revert fuel2 first last s.
  induction fuel1 as [|fuel1 IH]; intros fuel2 first last s H1 H2.
  - destruct fuel2 as [|fuel2]; [reflexivity|]. simpl.
    unfold scan. replace (last - S first) with 0 by lia. simpl.
    now rewrite andb_false_r.
  - destruct fuel2 as [|fuel2].
    + simpl. unfold scan. replace (last - S first) with 0 by lia. simpl.
      now rewrite andb_false_r.
    + simpl. destruct (scan points undef first last sqTol) as [m index] eqn:Hscan.
      destruct ((sqTol <? m)%float && truthy index); [|reflexivity].
      destruct index as [idx|]; [|reflexivity].
      apply scan_index_range in Hscan.
      rewrite (IH fuel2 first idx s) by lia.
      destruct (1 <? idx - first); now rewrite (IH fuel2 idx last) by lia.
Qed.

(** A run on the call stack that ends without the [RangeError] leaves the
    array [simplifyDP] computes. *)
Lemma simplifyDPOnStack_value (frames fuel first last : nat) (sqTol : float)
      (s r : list coordPair) :
  simplifyDPOnStack points undef frames first last sqTol s = Some r ->
  last - first <= fuel ->
  simplifyDP points undef fuel first last sqTol s = r.
Proof.
  revert fuel first last s r.
  induction frames as [|frames IH]; intros fuel first last s r H Hf; [discriminate|].
  simpl in H. destruct fuel as [|fuel].
  - simpl. unfold scan in H. replace (last - S first) with 0 in H by lia.
    simpl in H. rewrite andb_false_r in H. now inversion H.
  - simpl. destruct (scan points undef first last sqTol) as [m index] eqn:Hscan.
    destruct ((sqTol <? m)%float && truthy index); [|now inversion H].
    destruct index as [idx|]; [|now inversion H].
    apply scan_index_range in Hscan.
    destruct (1 <? idx - first).
    + destruct (simplifyDPOnStack points undef frames first idx sqTol s) as [s1|] eqn:E1;
        [|discriminate].
      simpl in H. rewrite (IH fuel first idx s s1 E1) by lia.
      destruct (1 <? last - idx); [apply IH; [assumption|lia]|now inversion H].
    + simpl in H.
      destruct (1 <? last - idx); [apply IH; [assumption|lia]|now inversion H].
Qed.

(** A stack with room for as many activations as the range is wide never
    overflows. *)
Lemma simplifyDPOnStack_enough (frames first last : nat) (sqTol : float)
      (s : list coordPair) :
  1 <= frames -> last - first <= frames ->
  simplifyDPOnStack points undef frames first last sqTol s =
  Some (simplifyDP points undef frames first last sqTol s).
Proof.
  revert first last s.
  induction frames as [|frames IH]; intros first last s H1 Hf; [lia|].
  simpl. destruct (scan points undef first last sqTol) as [m index] eqn:Hscan.
  destruct ((sqTol <? m)%float && truthy index); [|reflexivity].
  destruct index as [idx|]; [|reflexivity].
  apply scan_index_range in Hscan.
  destruct (Nat.ltb_spec 1 (idx - first)) as [Hl|Hl].
  - rewrite (IH first idx s) by lia. simpl.
    destruct (Nat.ltb_spec 1 (last - idx)); [apply IH; lia|reflexivity].
  - simpl. destruct (Nat.ltb_spec 1 (last - idx)); [apply IH; lia|reflexivity].
Qed.
End SimplifyDPFacts.

(** The budget of [reduce] in particular: the width of its top call is
    the length of the ring less one. *)
Corollary reduce_budget_suffices (r : list coordPair) (d : coordPair) (fuel : nat)
          (sqTol : float) (s : list coordPair) :
  length r - 1 <= fuel ->
  simplifyDP r d fuel 0 (length r - 1) sqTol s =
  simplifyDP r d (length r) 0 (length r - 1) sqTol s.
Proof. intros H. apply simplifyDP_fuel_enough; lia. Qed.

(** Every read of [simplifyDP] falls inside the array: the value standing
    for an out-of-range read has no influence on the run. *)
Lemma simplifyDP_reads_in_range (points : list coordPair) (d1 d2 : coordPair)
      (fuel first last : nat) (sqTol : float) (s : list coordPair) :
  last < length points ->
  simplifyDP points d1 fuel first last sqTol s =
  simplifyDP points d2 fuel first last sqTol s.
Proof.
  assert (Hscan : forall first last, last < length points ->
            scan points d1 first last sqTol = scan points d2 first last sqTol).
  { intros f l Hl. unfold scan.
    assert (Hin : Forall (fun i => f < i < l) (seq (S f) (l - S f))).
    { apply Forall_forall. intros j Hj. apply in_seq in Hj. lia. }
    generalize (sqTol, @None nat).
    induction Hin as [|j idxs Hj _ IH]; intros st; [reflexivity|].
    simpl. rewrite <- IH. f_equal. unfold scanStep, at_.
    destruct (Nat.le_gt_cases l f) as [Hle|Hlt]; [lia|].
    now rewrite (nth_indep points d1 d2 (n:=j)), (nth_indep points d1 d2 (n:=f)),
      (nth_indep points d1 d2 (n:=l)) by lia. }
  revert first last s; induction fuel as [|fuel IH]; intros first last s Hl;
    [reflexivity|].
  simpl. rewrite <- (Hscan first last Hl).
  destruct (scan points d1 first last sqTol) as [m index] eqn:E.
  destruct ((sqTol <? m)%float && truthy index); [|reflexivity].
  destruct index as [idx|]; [|reflexivity].
  apply scan_index_range in E.
  unfold at_. rewrite (nth_indep points d1 d2 (n:=idx)) by lia.
  rewrite (IH first idx s) by lia.
  destruct (1 <? idx - first); now rewrite (IH idx last) by lia.
Qed.

(** ** The local arrays of [simplifyRing] *)

Lemma closeIfOpen_spec (R : ring) :
  closeIfOpen R = if ringClosed R then R else R ++ firstn 1 R.
Proof.
  destruct R as [|first R]; [reflexivity|].
  unfold closeIfOpen, ringClosed, samePair.
  destruct (lastOpt (first :: R)) as [last|] eqn:E.
  - now destruct (strictEq (fst first) (fst last) && strictEq (snd first) (snd last)).
  - apply lastOpt_none in E. discriminate.
Qed.

Lemma closeIfOpen_length (R : ring) : length R <= length (closeIfOpen R).
Proof.
  rewrite closeIfOpen_spec. destruct (ringClosed R); [lia|].
  rewrite length_app. lia.
Qed.

Lemma closeIfOpen_hd (R : ring) : hd_error (closeIfOpen R) = hd_error R.
Proof.
  rewrite closeIfOpen_spec. destruct (ringClosed R); [reflexivity|].
  now destruct R.
Qed.

Lemma closeIfOpen_last (R : ring) :
  lastOpt (closeIfOpen R) = if ringClosed R then lastOpt R else hd_error R.
Proof.
  rewrite closeIfOpen_spec. destruct (ringClosed R); [reflexivity|].
  destruct R as [|first R]; [reflexivity|].
  apply (lastOpt_snoc (first :: R) first).
Qed.

Lemma reduce_hd (r : list coordPair) (sqTol : float) :
  hd_error (reduce r sqTol) = hd_error r.
Proof.
  destruct r as [|r0 r]; [reflexivity|].
  unfold reduce. rewrite simplifyDP_pushes. reflexivity.
Qed.

Lemma reduce_last (r : list coordPair) (sqTol : float) :
  lastOpt (reduce r sqTol) = lastOpt r.
Proof.
  destruct r as [|r0 r]; [reflexivity|].
  unfold reduce. rewrite lastOpt_snoc.
  symmetry. apply lastOpt_nth. discriminate.
Qed.

Lemma simplifyRing_short (R : ring) (tol : float) :
  length R <= 4 -> simplifyRing R tol = R.
Proof.
  intros H. unfold simplifyRing.
  now rewrite (proj2 (Nat.leb_le (length R) 4) H).
Qed.

Lemma simplifyRing_long (R : ring) (tol : float) :
  4 < length R ->
  simplifyRing R tol =
    if length (reduce (closeIfOpen R) (tol * tol)%float) <? 4
    then closeIfOpen R
    else reduce (closeIfOpen R) (tol * tol)%float.
Proof.
  intros H. unfold simplifyRing.
  now rewrite (proj2 (Nat.leb_gt (length R) 4) H).
Qed.

(** Both ends of the result, for a ring of any length. *)
Lemma simplifyRing_ends (R : ring) (tol : float) :
  hd_error (simplifyRing R tol) = hd_error R /\
  lastOpt (simplifyRing R tol) =
    if (length R <=? 4) || ringClosed R then lastOpt R else hd_error R.
Proof.
  destruct (Nat.leb_spec (length R) 4) as [Hs|Hl].
  - now rewrite simplifyRing_short.
  - rewrite simplifyRing_long by assumption. simpl.
    destruct (_ <? 4).
    + now rewrite closeIfOpen_hd, closeIfOpen_last.
    + now rewrite reduce_hd, reduce_last, closeIfOpen_hd, closeIfOpen_last.
Qed.

Lemma simplifyRing_length (R : ring) (tol : float) :
  4 <= length R -> 4 <= length (simplifyRing R tol).
Proof.
  intros H. destruct (Nat.le_gt_cases (length R) 4) as [Hs|Hl].
  - now rewrite simplifyRing_short.
  - rewrite simplifyRing_long by assumption.
    destruct (Nat.ltb_spec (length (reduce (closeIfOpen R) (tol * tol)%float)) 4).
    + pose proof (closeIfOpen_length R). lia.
    + assumption.
Qed.

(** ** Closure *)

Lemma ringClosed_cons (first : coordPair) (r : ring) :
  ringClosed (first :: r) =
    match lastOpt (first :: r) with
    | Some last => samePair first last
    | None => false
    end.
Proof. reflexivity. Qed.

Lemma ringClosed_ends (r r' : ring) :
  hd_error r = hd_error r' -> lastOpt r = lastOpt r' -> ringClosed r = ringClosed r'.
Proof.
  intros Hh Hl.
  destruct r as [|a r], r' as [|a' r']; simpl in Hh; try discriminate; [reflexivity|].
  inversion Hh; subst a'. unfold ringClosed. now rewrite Hl.
Qed.

Lemma simplifyRing_preserves_closed (r : ring) (tol : float) :
  ringClosed r = true -> ringClosed (simplifyRing r tol) = true.
Proof.
  intros H. rewrite <- H. destruct (simplifyRing_ends r tol) as [Hh Hl].
  apply ringClosed_ends; [assumption|].
  rewrite Hl, H. now rewrite orb_true_r.
Qed.

(** [ensureClosed] and the re-closing step of [simplifyRing] compute the
    same ring; the former throws on an empty array. *)
Lemma ensureClosed_closeIfOpen (r : ring) :
  r <> [] -> ensureClosed r = Some (closeIfOpen r).
Proof.
  destruct r as [|first r]; [congruence|intros _].
  unfold ensureClosed, closeIfOpen, strictNeq.
  destruct (lastOpt (first :: r)) as [last|] eqn:E.
  - rewrite <- negb_andb. unfold strictEq.
    destruct ((fst first =? fst last)%float && (snd first =? snd last)%float); simpl;
      [reflexivity|]. now destruct first.
  - apply lastOpt_none in E. discriminate.
Qed.

Lemma samePair_refl (p : coordPair) : coordPairSchema p = true -> samePair p p = true.
Proof.
  unfold coordPairSchema, zNumber, is_nan, samePair, strictEq.
  now rewrite !negb_involutive.
Qed.

Lemma closeIfOpen_closed (r : ring) :
  ringSchema r = true -> ringClosed (closeIfOpen r) = true.
Proof.
  unfold ringSchema. intros H. apply andb_true_iff in H. destruct H as [Hp Hn].
  rewrite closeIfOpen_spec. destruct (ringClosed r) eqn:E; [assumption|].
  destruct r as [|first r]; [discriminate|].
  pose proof (lastOpt_snoc (first :: r) first) as Hlast.
  simpl firstn. simpl app in *. rewrite ringClosed_cons, Hlast.
  apply samePair_refl. simpl in Hp. now apply andb_true_iff in Hp.
Qed.

Lemma ringSchema_nonempty (r : ring) : ringSchema r = true -> r <> [].
Proof.
  unfold ringSchema. intros H. apply andb_true_iff in H. destruct H as [_ H].
  destruct r; [discriminate|discriminate].
Qed.

Lemma closeRings_total (g : geometry) :
  geometrySchema g = true ->
  closeRings g =
    Some match g with
         | Point p => Point p
         | Polygon rings => Polygon (map closeIfOpen rings)
         | MultiPolygon polys => MultiPolygon (map (map closeIfOpen) polys)
         end.
Proof.
  assert (Hrings : forall rings, forallb ringSchema rings = true ->
            traverseOpt ensureClosed rings = Some (map closeIfOpen rings)).
  { intros rings H. apply traverseOpt_total. apply Forall_forall. intros r Hr.
    apply ensureClosed_closeIfOpen, ringSchema_nonempty.
    now apply (proj1 (forallb_forall _ _) H). }
  destruct g as [p|rings|polys]; simpl; intros H.
  - reflexivity.
  - now rewrite Hrings.
  - rewrite (traverseOpt_total _ (map closeIfOpen)); [reflexivity|].
    apply Forall_forall. intros poly Hp. apply Hrings.
    now apply (proj1 (forallb_forall _ _) H).
Qed.

(** ** Bounds *)

Lemma pairBad_false (p : coordPair) : pairBad p = false <-> inBounds p.
Proof.
  unfold pairBad, ok, inBounds. rewrite negb_false_iff, !andb_true_iff. tauto.
Qed.

Lemma existsb_false_Forall (A : Type) (f : A -> bool) (l : list A) :
  existsb f l = false <-> Forall (fun a => f a = false) l.
Proof.
  induction l as [|a l IH]; simpl.
  - split; [constructor|reflexivity].
  - rewrite orb_false_iff, Forall_cons_iff, IH. tauto.
Qed.

Lemma ringBad_false (r : ring) : existsb pairBad r = false <-> Forall inBounds r.
Proof.
  rewrite existsb_false_Forall.
  split; apply Forall_impl; intros p; apply pairBad_false.
Qed.

(** ** Claims about the geometry normaliser *)

(** C5: for every ring [R] of at least 4 points and every tolerance
    [>= 0], the ring [simplifyRing] returns has the first point and the
    last point of [R].  [R] is a ring as [simplifyRing] receives it: the
    function is local to the route file and its one caller,
    [simplifyGeometry], runs after [closeRings], so the first and last
    pairs of [R] pass the closure test. *)
Theorem simplifyRing_anchors (R : ring) (tol : float) :
  4 <= length R -> (0 <=? tol)%float = true -> ringClosed R = true ->
  hd_error (simplifyRing R tol) = hd_error R /\
  lastOpt (simplifyRing R tol) = lastOpt R.
Proof.
  intros _ _ Hc. destruct (simplifyRing_ends R tol) as [Hh Hl].
  split; [exact Hh|]. rewrite Hl, Hc. now rewrite orb_true_r.
Qed.

Lemma simplifyRing_anchors_witness :
  4 <= length [(0, 0); (1, 0); (2, 0); (3, 0); (3, 3); (0, 3); (0, 0)]%float /\
  (0 <=? 0.5)%float = true /\
  ringClosed [(0, 0); (1, 0); (2, 0); (3, 0); (3, 3); (0, 3); (0, 0)]%float = true /\
  hd_error (simplifyRing [(0, 0); (1, 0); (2, 0); (3, 0); (3, 3); (0, 3); (0, 0)]%float
                         0.5%float) = Some (0, 0)%float /\
  lastOpt (simplifyRing [(0, 0); (1, 0); (2, 0); (3, 0); (3, 3); (0, 3); (0, 0)]%float
                        0.5%float) = Some (0, 0)%float.
Proof.
  assert (H : 4 <= length [(0, 0); (1, 0); (2, 0); (3, 0); (3, 3); (0, 3); (0, 0)]%float)
    by (simpl; lia).
  split; [exact H|]. split; [reflexivity|]. split; [reflexivity|].
  exact (@simplifyRing_anchors
           [(0, 0); (1, 0); (2, 0); (3, 0); (3, 3); (0, 3); (0, 0)]%float 0.5%float
           H eq_refl eq_refl).
Defined.

(** C6: for every ring [R] of at least 4 points (closed, as
    [simplifyRing] receives it) and every tolerance [>= 0], the ring
    returned has at least 4 points; a ring of at most 4 points is
    returned as it is; when the reduction leaves fewer than 4 points, [R]
    is returned as it is; and otherwise the reduction is returned. *)
Theorem simplifyRing_floor (R : ring) (tol : float) :
  4 <= length R -> (0 <=? tol)%float = true -> ringClosed R = true ->
  4 <= length (simplifyRing R tol) /\
  (length R <= 4 -> simplifyRing R tol = R) /\
  (length (reduce R (tol * tol)%float) < 4 -> simplifyRing R tol = R) /\
  (4 < length R -> 4 <= length (reduce R (tol * tol)%float) ->
   simplifyRing R tol = reduce R (tol * tol)%float).
Proof.
  intros H4 _ Hc.
  assert (Hring : closeIfOpen R = R) by now rewrite closeIfOpen_spec, Hc.
  split; [now apply simplifyRing_length|].
  split; [apply simplifyRing_short|].
  split.
  - intros Hred. destruct (Nat.le_gt_cases (length R) 4) as [Hs|Hl].
    + now apply simplifyRing_short.
    + rewrite simplifyRing_long, Hring by assumption.
      now rewrite (proj2 (Nat.ltb_lt _ 4) Hred).
  - intros Hl Hred. rewrite simplifyRing_long, Hring by assumption.
    now rewrite (proj2 (Nat.ltb_ge _ 4) Hred).
Qed.

Lemma simplifyRing_floor_witness :
  4 <= length [(0, 0); (1, 0); (2, 0); (3, 0); (4, 0); (0, 0)]%float /\
  (0 <=? 100)%float = true /\
  ringClosed [(0, 0); (1, 0); (2, 0); (3, 0); (4, 0); (0, 0)]%float = true /\
  length (reduce [(0, 0); (1, 0); (2, 0); (3, 0); (4, 0); (0, 0)]%float
                 (100 * 100)%float) = 2 /\
  simplifyRing [(0, 0); (1, 0); (2, 0); (3, 0); (4, 0); (0, 0)]%float 100%float
  = [(0, 0); (1, 0); (2, 0); (3, 0); (4, 0); (0, 0)]%float.
Proof.
  assert (H : 4 <= length [(0, 0); (1, 0); (2, 0); (3, 0); (4, 0); (0, 0)]%float)
    by (simpl; lia).
  assert (Hred : length (reduce [(0, 0); (1, 0); (2, 0); (3, 0); (4, 0); (0, 0)]%float
                                (100 * 100)%float) < 4)
    by (vm_compute; lia).
  split; [exact H|]. split; [reflexivity|]. split; [reflexivity|].
  split; [reflexivity|].
  exact (proj1 (proj2 (proj2 (@simplifyRing_floor
                  [(0, 0); (1, 0); (2, 0); (3, 0); (4, 0); (0, 0)]%float 100%float
                  H eq_refl eq_refl))) Hred).
Defined.

(** What [closeRings] does to one ring: a copy of the first pair is
    appended exactly when the closure test fails. *)
Lemma ensureClosed_appends_when_open (r : ring) :
  r <> [] ->
  ensureClosed r = Some (if ringClosed r then r else r ++ firstn 1 r).
Proof.
  intros H. rewrite ensureClosed_closeIfOpen by assumption.
  now rewrite closeIfOpen_spec.
Qed.

(** C7: for every geometry the schema accepts (rings of at least 4 pairs
    of numbers), [closeRings] succeeds; it leaves each ring as it is when
    its first and last pairs are equal and appends a copy of the first
    pair otherwise, so that every ring is closed; and every ring of the
    geometry [simplifyGeometry] then returns is closed as well: its first
    and last pairs pass the test
    [first[0] === last[0] && first[1] === last[1]]. *)
Theorem pipeline_rings_closed (g : geometry) (tol : float) :
  geometrySchema g = true ->
  exists g1,
    closeRings g = Some g1 /\
    ringsOf g1 = map (fun r => if ringClosed r then r else r ++ firstn 1 r) (ringsOf g) /\
    Forall (fun r => ringClosed r = true) (ringsOf g1) /\
    Forall (fun r => ringClosed r = true) (ringsOf (simplifyGeometry g1 tol)).
Proof.
  intros Hs. rewrite closeRings_total by assumption.
  eexists; split; [reflexivity|].
  assert (Hrings : forall rings, forallb ringSchema rings = true ->
            Forall (fun r => ringClosed r = true) (map closeIfOpen rings)).
  { intros rings H. apply Forall_map, Forall_forall. intros r Hr.
    apply closeIfOpen_closed. now apply (proj1 (forallb_forall _ _) H). }
  assert (Hsimp : forall rings, Forall (fun r => ringClosed r = true) rings ->
            Forall (fun r => ringClosed r = true)
                   (map (fun r => simplifyRing r tol) rings)).
  { intros rings H. apply Forall_map. revert H. apply Forall_impl.
    intros r. apply simplifyRing_preserves_closed. }
  assert (Hmap : forall rings,
             map closeIfOpen rings =
             map (fun r => if ringClosed r then r else r ++ firstn 1 r) rings).
  { intros rings. apply map_ext. exact closeIfOpen_spec. }
  destruct g as [p|rings|polys]; simpl in *.
  - repeat split; constructor.
  - split; [apply Hmap|]. split; [now apply Hrings|now apply Hsimp, Hrings].
  - assert (Hpolys : Forall (Forall (fun r => ringClosed r = true))
                            (map (map closeIfOpen) polys)).
    { apply Forall_map, Forall_forall. intros poly Hp. apply Hrings.
      now apply (proj1 (forallb_forall _ _) Hs). }
    split; [now rewrite <- concat_map, Hmap|].
    split; [now apply Forall_concat|].
    apply Forall_concat. rewrite Forall_map. revert Hpolys.
    apply Forall_impl. intros poly. apply Hsimp.
Qed.

Lemma pipeline_rings_closed_witness :
  geometrySchema (Polygon [[(0, 0); (1, 0); (1, 1); (0, 1)]%float]) = true /\
  exists g1,
    closeRings (Polygon [[(0, 0); (1, 0); (1, 1); (0, 1)]%float]) = Some g1 /\
    ringsOf g1 = [[(0, 0); (1, 0); (1, 1); (0, 1); (0, 0)]%float] /\
    Forall (fun r => ringClosed r = true) (ringsOf g1) /\
    Forall (fun r => ringClosed r = true)
           (ringsOf (simplifyGeometry g1 defaultToleranceDeg)).
Proof.
  split; [reflexivity|].
  exact (@pipeline_rings_closed (Polygon [[(0, 0); (1, 0); (1, 1); (0, 1)]%float])
                                defaultToleranceDeg eq_refl).
Defined.

(** The schema's refusal of [NaN] is what the closure rests on: a copy of
    a pair holding [NaN] is not [===] to the pair. *)
Remark closeIfOpen_nan_stays_open :
  ringClosed (closeIfOpen [(nan, 0); (1, 0); (1, 1); (0, 1)]%float) = false.
Proof. reflexivity. Qed.

(** C9: [validateBounds] (the negation of [coordsOutOfBounds]) holds
    exactly when every pair of the geometry has [-180 <= lng <= 180] and
    [-90 <= lat <= 90]; it is a function of the geometry alone, which it
    only reads.  A polygon with the pair [(200, 10)] anywhere in any ring
    fails, and the closed unit square passes. *)
Theorem validateBounds_spec :
  (forall g : geometry, validateBounds g = true <-> Forall inBounds (pairsOf g)) /\
  (forall (before after : list ring) (pre post : ring),
      validateBounds (Polygon (before ++ (pre ++ (200, 10)%float :: post) :: after))
      = false) /\
  validateBounds (Polygon [[(0, 0); (1, 0); (1, 1); (0, 1); (0, 0)]%float]) = true.
Proof.
  assert (Hiff : forall g : geometry,
             validateBounds g = true <-> Forall inBounds (pairsOf g)).
  { intros g. unfold validateBounds. rewrite negb_true_iff.
    destruct g as [p|rings|polys]; simpl.
    - rewrite pairBad_false. split.
      + intros H. now constructor.
      + intros H. now inversion H.
    - rewrite existsb_false_Forall, Forall_concat.
      split; apply Forall_impl; intros r; apply ringBad_false.
    - rewrite existsb_false_Forall, !Forall_concat.
      split; apply Forall_impl; intros poly;
        rewrite existsb_false_Forall;
        apply Forall_impl; intros r; apply ringBad_false. }
  split; [exact Hiff|]. split; [|reflexivity].
  intros before after pre post.
  destruct (validateBounds _) eqn:E; [|reflexivity].
  apply Hiff in E. simpl in E.
  rewrite concat_app in E. apply Forall_app in E. destruct E as [_ E].
  simpl in E. apply Forall_app in E. destruct E as [E _].
  apply Forall_app in E. destruct E as [_ E].
  inversion E as [|p l Hp _]; subst.
  destruct Hp as (_ & Hp & _). vm_compute in Hp. discriminate.
Qed.

(** C10: on a [Point], [closeRings] and [simplifyGeometry] return the
    geometry they were given, type and coordinates alike, so the pipeline
    accepts the point as it is or rejects it for its bounds, whatever
    room the call stack has. *)
Theorem point_untouched (p : coordPair) (tol : float) (frames : nat) :
  closeRings (Point p) = Some (Point p) /\
  simplifyGeometry (Point p) tol = Point p /\
  normalize frames (Point p) = if coordsOutOfBounds (Point p) then OutOfBounds
                               else Accepted (Point p).
Proof. repeat split. Qed.

(* ===================================================================== *)
(** * Part III. The cache: properties                                     *)
(* ===================================================================== *)

Import Cache.

(** ** The map *)

Lemma mapGet_mapSet_same (k : string) (v : entry) (m : jsMap) :
  mapGet k (mapSet k v m) = Some v.
Proof.
  induction m as [|[k' v'] m IH]; simpl.
  - now rewrite String.eqb_refl.
  - destruct (String.eqb k' k) eqn:E; simpl.
    + now rewrite String.eqb_refl.
    + now rewrite E.
Qed.

Lemma mapGet_mapSet_other (k k0 : string) (v : entry) (m : jsMap) :
  k0 <> k -> mapGet k0 (mapSet k v m) = mapGet k0 m.
Proof.
  intros Hne. induction m as [|[k' v'] m IH]; simpl.
  - now rewrite (proj2 (String.eqb_neq k k0)) by congruence.
  - destruct (String.eqb_spec k' k) as [->|Hk]; simpl.
    + now rewrite (proj2 (String.eqb_neq k k0)) by congruence.
    + now rewrite IH.
Qed.

Lemma mapGet_none_keys (k : string) (m : jsMap) :
  mapGet k m = None <-> ~ In k (keys m).
Proof.
  induction m as [|[k' v'] m IH]; simpl; [tauto|].
  destruct (String.eqb_spec k' k) as [->|Hk].
  - split; [discriminate|intros H; exfalso; apply H; now left].
  - rewrite IH. tauto.
Qed.

(** [set] keeps the position of a present key and appends an absent one. *)
Lemma keys_mapSet (k : string) (v : entry) (m : jsMap) :
  keys (mapSet k v m) = match mapGet k m with
                        | Some _ => keys m
                        | None => keys m ++ [k]
                        end.
Proof.
  induction m as [|[k' v'] m IH]; simpl; [reflexivity|].
  destruct (String.eqb_spec k' k) as [->|Hk]; simpl; [reflexivity|].
  rewrite IH. now destruct (mapGet k m).
Qed.

Lemma mapSize_mapSet (k : string) (v : entry) (m : jsMap) :
  mapSize (mapSet k v m) = match mapGet k m with
                           | Some _ => mapSize m
                           | None => S (mapSize m)
                           end.
Proof.
  unfold mapSize. rewrite <- !(length_map fst). fold (keys (mapSet k v m)) (keys m).
  rewrite keys_mapSet. destruct (mapGet k m); [reflexivity|].
  rewrite length_app. simpl. lia.
Qed.

Lemma NoDup_mapSet (k : string) (v : entry) (m : jsMap) :
  NoDup (keys m) -> NoDup (keys (mapSet k v m)).
Proof.
  intros H. rewrite keys_mapSet. destruct (mapGet k m) eqn:E; [assumption|].
  apply mapGet_none_keys in E.
  apply NoDup_app; [assumption|repeat constructor; intros []|].
  intros a Ha [<-|[]]. contradiction.
Qed.

Lemma keys_filter_NoDup (f : string * entry -> bool) (m : jsMap) :
  NoDup (keys m) -> NoDup (keys (filter f m)).
Proof.
  induction m as [|kv m IH]; simpl; intros H; [constructor|].
  inversion H as [|? ? Hnot Hm]; subst.
  destruct (f kv); simpl; [|now apply IH].
  constructor; [|now apply IH].
  intros Hin. apply Hnot. unfold keys in *.
  apply in_map_iff in Hin. destruct Hin as (e & He & Hin).
  apply in_map_iff. exists e. split; [assumption|].
  now apply filter_In in Hin.
Qed.

Lemma NoDup_mapDelete (k : string) (m : jsMap) :
  NoDup (keys m) -> NoDup (keys (mapDelete k m)).
Proof. apply keys_filter_NoDup. Qed.

Lemma mapGet_mapDelete_same (k : string) (m : jsMap) :
  mapGet k (mapDelete k m) = None.
Proof.
  induction m as [|[k' v'] m IH]; simpl; [reflexivity|].
  destruct (String.eqb k' k) eqn:E; simpl; [assumption|].
  now rewrite E.
Qed.

(** In a map, the binding found under a key is the only entry with it. *)
Lemma NoDup_keys_unique (m : jsMap) (a b : string * entry) :
  NoDup (keys m) -> In a m -> In b m -> fst a = fst b -> a = b.
Proof.
  induction m as [|kv m IH]; simpl; intros H Ha Hb Hk; [contradiction|].
  inversion H as [|? ? Hnot Hm]; subst.
  destruct Ha as [->|Ha], Hb as [->|Hb].
  - reflexivity.
  - exfalso. apply Hnot. rewrite Hk. now apply in_map.
  - exfalso. apply Hnot. rewrite <- Hk. now apply in_map.
  - now apply IH.
Qed.

(** ** Filtering, sorting *)

Section FilterFacts.
Variable A : Type.

Lemma filter_twice (f g : A -> bool) (l : list A) :
  filter f (filter g l) = filter (fun a => g a && f a) l.
Proof.
  induction l as [|a l IH]; simpl; [reflexivity|].
  destruct (g a); simpl; [destruct (f a)|]; now rewrite IH.
Qed.

Lemma filter_all (f : A -> bool) (l : list A) :
  Forall (fun a => f a = true) l -> filter f l = l.
Proof.
  induction 1 as [|a l Ha _ IH]; simpl; [reflexivity|].
  now rewrite Ha, IH.
Qed.

Lemma filter_none (f : A -> bool) (l : list A) :
  Forall (fun a => f a = false) l -> filter f l = [].
Proof.
  induction 1 as [|a l Ha _ IH]; simpl; [reflexivity|].
  now rewrite Ha.
Qed.

Lemma Permutation_filter (f : A -> bool) (l l' : list A) :
  Permutation l l' -> Permutation (filter f l) (filter f l').
Proof.
  induction 1 as [|a l l' _ IH|a b l|l l' l'' _ IH1 _ IH2]; simpl.
  - constructor.
  - destruct (f a); [now constructor|assumption].
  - destruct (f a), (f b); try reflexivity. constructor.
  - now transitivity (filter f l').
Qed.

Lemma NoDup_app_disjoint (l1 l2 : list A) (a : A) :
  NoDup (l1 ++ l2) -> In a l1 -> ~ In a l2.
Proof.
  induction l1 as [|b l1 IH]; simpl; intros H Hin; [contradiction|].
  inversion H as [|? ? Hnot Hrest]; subst.
  destruct Hin as [->|Hin]; [|now apply IH].
  intros Ha. apply Hnot. apply in_or_app. now right.
Qed.
End FilterFacts.

Section SortFacts.
Variable A : Type.
Variable cmp : A -> A -> Z.

Lemma insertBy_perm (a : A) (l : list A) : Permutation (insertBy cmp a l) (a :: l).
Proof.
  induction l as [|b l IH]; simpl; [reflexivity|].
  destruct (cmp a b <=? 0)%Z; [reflexivity|].
  rewrite IH. constructor.
Qed.

Lemma sortBy_perm (l : list A) : Permutation (sortBy cmp l) l.
Proof.
  induction l as [|a l IH]; simpl; [reflexivity|].
  rewrite insertBy_perm. now constructor.
Qed.

Hypothesis cmp_total : forall a b, before cmp a b \/ before cmp b a.

Lemma insertBy_sorted (a : A) (l : list A) :
  Sorted (before cmp) l -> Sorted (before cmp) (insertBy cmp a l).
Proof.
  induction 1 as [|b l Hs IH Hhd]; simpl; [repeat constructor|].
  destruct (Z.leb_spec (cmp a b) 0) as [Hab|Hab].
  - repeat constructor; assumption.
  - constructor; [assumption|].
    assert (Hba : before cmp b a) by (destruct (cmp_total a b); [unfold before in *; lia|assumption]).
    destruct Hhd as [|c l Hbc]; simpl; [now repeat constructor|].
    destruct (cmp a c <=? 0)%Z; now constructor.
Qed.

Lemma sortBy_sorted (l : list A) : Sorted (before cmp) (sortBy cmp l).
Proof.
  induction l as [|a l IH]; simpl; [constructor|].
  now apply insertBy_sorted.
Qed.

(** An array already in order comes back as it is: the sort is stable. *)
Lemma sortBy_sorted_id (l : list A) : Sorted (before cmp) l -> sortBy cmp l = l.
Proof.
  induction 1 as [|a l Hs IH Hhd]; simpl; [reflexivity|].
  rewrite IH. destruct Hhd as [|b l Hab]; simpl; [reflexivity|].
  now rewrite (proj2 (Z.leb_le _ _) Hab).
Qed.
End SortFacts.

Lemma before_byTimestamp (a b : string * entry) :
  before byTimestamp a b <-> olderEq a b.
Proof. unfold before, byTimestamp, olderEq. lia. Qed.

Lemma olderEq_trans : Relations_1.Transitive olderEq.
Proof. intros a b c. unfold olderEq. lia. Qed.

Lemma sortBy_byTimestamp_sorted (l : list (string * entry)) :
  StronglySorted olderEq (sortBy byTimestamp l).
Proof.
  apply Sorted_StronglySorted; [exact olderEq_trans|].
  assert (H : Sorted (before byTimestamp) (sortBy byTimestamp l)).
  { apply sortBy_sorted. intros a b. unfold before, byTimestamp. lia. }
  revert H. generalize (sortBy byTimestamp l) as s.
  induction 1 as [|a s Hs IH Hhd]; constructor; [assumption|].
  destruct Hhd; constructor. now apply before_byTimestamp.
Qed.

(** In a sorted array every entry of a prefix is at most as recent as
    every entry after the prefix. *)
Lemma StronglySorted_split (n : nat) (s : list (string * entry)) :
  StronglySorted olderEq s ->
  forall a b, In a (firstn n s) -> In b (skipn n s) -> olderEq a b.
Proof.
  intros Hs. revert n. induction Hs as [|c s Hs IH Hc]; intros n a b Ha Hb.
  - rewrite firstn_nil in Ha. contradiction.
  - destruct n as [|n]; simpl in *; [contradiction|].
    destruct Ha as [<-|Ha].
    + rewrite Forall_forall in Hc. apply Hc.
      rewrite <- (firstn_skipn n s). apply in_or_app. now right.
    + now apply (IH n).
Qed.

(** ** cleanupCache *)

Lemma isFresh_not_expired (now : Z) (kv : string * entry) :
  isFresh now kv = negb (isExpired now kv).
Proof.
  unfold isFresh, isExpired. rewrite Z.gtb_ltb, Z.leb_antisym. reflexivity.
Qed.

Lemma keyIn_cons (e : string * entry) (l : list (string * entry)) (kv : string * entry) :
  keyIn (e :: l) kv = String.eqb (fst e) (fst kv) || keyIn l kv.
Proof. reflexivity. Qed.

(** The deletions of both loops, as one filter over the map. *)
Lemma deleteAll_filter (toRemove : list (string * entry)) (m : jsMap) :
  deleteAll toRemove m = filter (fun kv => negb (keyIn toRemove kv)) m.
Proof.
  unfold deleteAll. revert m.
  induction toRemove as [|e toRemove IH]; intros m; cbn [fold_left].
  - symmetry. apply filter_all, Forall_forall. reflexivity.
  - rewrite IH. unfold mapDelete. rewrite filter_twice.
    apply filter_ext. intros kv. rewrite keyIn_cons, negb_orb.
    now rewrite String.eqb_sym.
Qed.

Lemma removeExpired_filter (now : Z) (entries : list (string * entry)) (m : jsMap) :
  removeExpired now entries m =
  filter (fun kv => negb (keyIn (filter (isExpired now) entries) kv)) m.
Proof.
  unfold removeExpired. revert m.
  induction entries as [|e entries IH]; intros m; cbn [fold_left filter].
  - symmetry. apply filter_all, Forall_forall. reflexivity.
  - rewrite IH. destruct (isExpired now e); [|reflexivity].
    unfold mapDelete. rewrite filter_twice.
    apply filter_ext. intros kv. rewrite keyIn_cons, negb_orb.
    now rewrite String.eqb_sym.
Qed.

(** Among the entries of a map, having the key of an entry of [l] is
    being an entry of [l]. *)
Lemma keyIn_sub (m : jsMap) (l : list (string * entry)) (kv : string * entry) :
  NoDup (keys m) -> incl l m -> In kv m ->
  keyIn l kv = true <-> In kv l.
Proof.
  intros Hm Hl Hkv. unfold keyIn. rewrite existsb_exists. split.
  - intros (e & He & Hk). apply String.eqb_eq in Hk.
    now rewrite <- (NoDup_keys_unique m e kv Hm (Hl e He) Hkv Hk).
  - intros H. exists kv. split; [assumption|apply String.eqb_refl].
Qed.

(** The first loop keeps exactly the entries aged at most [CACHE_TTL]. *)
Lemma removeExpired_self (now : Z) (m : jsMap) :
  NoDup (keys m) -> removeExpired now m m = filter (isFresh now) m.
Proof.
  intros Hm. rewrite removeExpired_filter. apply filter_ext_in. intros kv Hkv.
  rewrite isFresh_not_expired. f_equal.
  apply eq_true_iff_eq.
  rewrite (@keyIn_sub m (filter (isExpired now) m) kv Hm); [|intros e He|assumption].
  - rewrite filter_In. tauto.
  - now apply filter_In in He.
Qed.

(** The whole pass, for a map: the fresh entries, less the first
    [size - MAX_CACHE_SIZE] of them in stored order when there are more
    than [MAX_CACHE_SIZE]. *)
Lemma cleanupCache_spec (now : Z) (m : jsMap) :
  NoDup (keys m) ->
  cleanupCache now m =
    let fresh := filter (isFresh now) m in
    if MAX_CACHE_SIZE <? length fresh then
      filter (fun kv => negb (keyIn (firstn (length fresh - MAX_CACHE_SIZE)
                                            (sortBy byTimestamp fresh)) kv)) fresh
    else fresh.
Proof.
  intros Hm. unfold cleanupCache, mapSize. rewrite removeExpired_self by assumption.
  cbv zeta. destruct (MAX_CACHE_SIZE <? _); [|reflexivity].
  apply deleteAll_filter.
Qed.

(** Dropping from a map the first [n] entries of a rearrangement of it
    leaves the other entries of the rearrangement. *)
Lemma drop_prefix_of_perm (m s : list (string * entry)) (n : nat) :
  NoDup (keys m) -> Permutation s m ->
  Permutation (filter (fun kv => negb (keyIn (firstn n s) kv)) m) (skipn n s).
Proof.
  intros Hm Hperm.
  assert (Hs : NoDup (keys s)).
  { apply (Permutation_NoDup (l:=keys m)); [|assumption].
    unfold keys. apply Permutation_map. now symmetry. }
  set (P := fun kv => negb (keyIn (firstn n s) kv)).
  rewrite <- (Permutation_filter P Hperm).
  assert (Hin : forall kv, In kv s -> keyIn (firstn n s) kv = true <-> In kv (firstn n s)).
  { intros kv Hkv. apply (@keyIn_sub s); [assumption| |assumption].
    intros e He. rewrite <- (firstn_skipn n s). apply in_or_app. now left. }
  assert (Hnd : NoDup (firstn n s ++ skipn n s)).
  { rewrite firstn_skipn. now apply NoDup_map_inv with (f:=fst). }
  replace (filter P s) with (filter P (firstn n s ++ skipn n s))
    by (now rewrite firstn_skipn).
  rewrite filter_app, filter_none, filter_all; [reflexivity| |].
  - apply Forall_forall. intros kv Hkv. apply negb_true_iff.
    destruct (keyIn (firstn n s) kv) eqn:E; [|reflexivity].
    exfalso. apply Hin in E.
    + now apply (NoDup_app_disjoint _ _ kv Hnd).
    + rewrite <- (firstn_skipn n s). apply in_or_app. now right.
  - apply Forall_forall. intros kv Hkv. apply negb_false_iff.
    apply Hin; [|assumption].
    rewrite <- (firstn_skipn n s). apply in_or_app. now left.
Qed.

(** After a pass over a map, the map holds at most [MAX_CACHE_SIZE]
    entries; exactly that many when more than that were fresh. *)
Lemma cleanupCache_size (now : Z) (m : jsMap) :
  NoDup (keys m) ->
  mapSize (cleanupCache now m) = Nat.min MAX_CACHE_SIZE (length (filter (isFresh now) m)).
Proof.
  intros Hm. rewrite cleanupCache_spec by assumption. cbv zeta.
  set (fresh := filter (isFresh now) m).
  destruct (Nat.ltb_spec MAX_CACHE_SIZE (length fresh)) as [Hbig|Hsmall];
    [|unfold mapSize; lia].
  unfold mapSize.
  rewrite (Permutation_length
             (@drop_prefix_of_perm fresh (sortBy byTimestamp fresh)
                (length fresh - MAX_CACHE_SIZE)
                (@keys_filter_NoDup (isFresh now) m Hm) (sortBy_perm byTimestamp fresh))).
  rewrite length_skipn, (Permutation_length (sortBy_perm byTimestamp fresh)). lia.
Qed.

Lemma cleanupCache_NoDup (now : Z) (m : jsMap) :
  NoDup (keys m) -> NoDup (keys (cleanupCache now m)).
Proof.
  intros Hm. rewrite cleanupCache_spec by assumption. cbv zeta.
  destruct (_ <? _); repeat apply keys_filter_NoDup; assumption.
Qed.

(** Oldest first: whatever the second loop removes was stored no later
    than whatever it keeps. *)
Lemma cleanupCache_oldest_first (now : Z) (m : jsMap) (gone kept : string * entry) :
  NoDup (keys m) ->
  In gone (filter (isFresh now) m) -> ~ In gone (cleanupCache now m) ->
  In kept (cleanupCache now m) ->
  olderEq gone kept.
Proof.
  intros Hm Hgone Hnot Hkept. rewrite cleanupCache_spec in Hnot, Hkept by assumption.
  cbv zeta in Hnot, Hkept. set (fresh := filter (isFresh now) m) in *.
  destruct (MAX_CACHE_SIZE <? length fresh); [|contradiction].
  set (n := length fresh - MAX_CACHE_SIZE) in *.
  set (s := sortBy byTimestamp fresh) in *.
  assert (Hfresh : NoDup (keys fresh)) by now apply keys_filter_NoDup.
  assert (Hsub : incl (firstn n s) fresh).
  { intros e He. apply (Permutation_in e (sortBy_perm byTimestamp fresh)).
    fold s. rewrite <- (firstn_skipn n s). apply in_or_app. now left. }
  apply (StronglySorted_split n (sortBy_byTimestamp_sorted fresh)); fold s.
  - apply (@keyIn_sub fresh (firstn n s) gone Hfresh Hsub Hgone).
    destruct (keyIn (firstn n s) gone) eqn:E; [reflexivity|].
    exfalso. apply Hnot. apply filter_In. now rewrite E.
  - apply (Permutation_in kept
             (@drop_prefix_of_perm fresh s n Hfresh (sortBy_perm byTimestamp fresh))).
    exact Hkept.
Qed.

(** Entries stored in increasing time order and all still fresh: the pass
    keeps the last [MAX_CACHE_SIZE] insertions, in order. *)
Lemma cleanupCache_keeps_latest (now : Z) (m : jsMap) :
  NoDup (keys m) ->
  Forall (fun kv => isFresh now kv = true) m ->
  StronglySorted olderEq m ->
  cleanupCache now m = skipn (length m - MAX_CACHE_SIZE) m.
Proof.
  intros Hm Hfresh Hsorted. rewrite cleanupCache_spec by assumption. cbv zeta.
  rewrite (filter_all _ Hfresh).
  destruct (Nat.ltb_spec MAX_CACHE_SIZE (length m)) as [Hbig|Hsmall].
  - rewrite sortBy_sorted_id.
    + set (n := length m - MAX_CACHE_SIZE).
      set (P := fun kv => negb (keyIn (firstn n m) kv)).
      assert (Hnd : NoDup (firstn n m ++ skipn n m)).
      { rewrite firstn_skipn. now apply NoDup_map_inv with (f:=fst). }
      assert (Hin : forall kv, In kv m -> keyIn (firstn n m) kv = true <-> In kv (firstn n m)).
      { intros kv Hkv. apply (@keyIn_sub m); [assumption| |assumption].
        intros e He. rewrite <- (firstn_skipn n m). apply in_or_app. now left. }
      replace (filter P m) with (filter P (firstn n m ++ skipn n m))
        by (now rewrite firstn_skipn).
      rewrite filter_app, filter_none, filter_all; [reflexivity| |].
      * apply Forall_forall. intros kv Hkv. apply negb_true_iff.
        destruct (keyIn (firstn n m) kv) eqn:E; [|reflexivity].
        exfalso. apply Hin in E.
        -- now apply (NoDup_app_disjoint _ _ kv Hnd).
        -- rewrite <- (firstn_skipn n m). apply in_or_app. now right.
      * apply Forall_forall. intros kv Hkv. apply negb_false_iff.
        apply Hin; [|assumption].
        rewrite <- (firstn_skipn n m). apply in_or_app. now left.
    + apply StronglySorted_Sorted.
      revert Hsorted. clear. induction 1 as [|a l Hl IH Ha]; constructor; [assumption|].
      revert Ha. apply Forall_impl. intros b. apply before_byTimestamp.
  - replace (length m - MAX_CACHE_SIZE) with 0 by lia. reflexivity.
Qed.

(** ** The handler keeps the cache a map *)

Lemma cachePut_NoDup (now : Z) (key : string) (d : payload) (c : jsMap) :
  NoDup (keys c) -> NoDup (keys (cachePut now key d c)).
Proof. apply NoDup_mapSet. Qed.

Lemma featureInfoHandler_NoDup (numberToString : float -> string)
      (query : option featureInfo) (tProbe tStore : Z) (up : upstream) (c : jsMap) :
  NoDup (keys c) ->
  NoDup (keys (snd (featureInfoHandler numberToString query tProbe tStore up c))).
Proof.
  intros H. unfold featureInfoHandler.
  destruct query as [q|]; [|assumption].
  destruct (cacheGet tProbe (cacheKey numberToString q) c); [assumption|].
  destruct (awaitUpstream up); simpl; [assumption|]. now apply cachePut_NoDup.
Qed.

Lemma burst_NoDup (numberToString : float -> string) (n : nat) (times : nat -> Z) :
  NoDup (keys (burst numberToString n times)).
Proof.
  unfold burst. generalize (seq 0 n) as l.
  assert (H : NoDup (keys [])) by constructor.
  revert H. generalize (@nil (string * entry)) as c.
  intros c H l. revert c H.
  induction l as [|i l IH]; intros c H; simpl; [assumption|].
  apply IH. now apply featureInfoHandler_NoDup.
Qed.

(** ** Claims about the cache *)

Local Open Scope string_scope.
Local Open Scope list_scope.

(** C1, as stated: every put is followed by a cleanup pass, so that right
    after an insertion at most [MAX_CACHE_SIZE] live entries are held.
    The handler only calls [wmsCache.set]: after [MAX_CACHE_SIZE] answered
    requests for distinct pixels within one millisecond the map is full,
    and the next put leaves [MAX_CACHE_SIZE + 1] live entries. *)
Lemma put_runs_no_cleanup :
  ~ (forall (now : Z) (key : string) (d : payload) (c : jsMap),
        NoDup (keys c) -> mapSize c <= MAX_CACHE_SIZE ->
        liveCount now (cachePut now key d c) <= MAX_CACHE_SIZE).
Proof.
  intros H.
  specialize (H 0%Z (cacheKey integerToString (requestAt 1000)) "{}"%string
                (burst integerToString 1000 (fun _ => 0%Z))
                (burst_NoDup integerToString 1000 (fun _ => 0%Z))).
  assert (Hfull : mapSize (burst integerToString 1000 (fun _ => 0%Z)) <= MAX_CACHE_SIZE)
    by (apply Nat.leb_le; vm_compute; reflexivity).
  assert (Hlive : Nat.leb (liveCount 0 (cachePut 0 (cacheKey integerToString
                                                              (requestAt 1000)) "{}"
                                                (burst integerToString 1000 (fun _ => 0%Z))))
                           MAX_CACHE_SIZE = false)
    by (vm_compute; reflexivity).
  apply H in Hfull. apply Nat.leb_le in Hfull.
  exact (eq_true_false_abs _ Hfull Hlive).
Qed.

(** C1, amended: every put inserts or overwrites the entry of its key
    with [timestamp] set to the current time, leaves every other entry as
    it was, and runs no cleanup pass; cleanup passes come from the
    5-minute timer alone, and right after any cleanup pass the cache holds
    at most [MAX_CACHE_SIZE] entries. *)
Theorem put_then_cleanup (now : Z) (key : string) (d : payload) (c : jsMap) :
  NoDup (keys c) ->
  mapGet key (cachePut now key d c) = Some {| data := d; timestamp := now |} /\
  (forall k, k <> key -> mapGet k (cachePut now key d c) = mapGet k c) /\
  mapSize (cachePut now key d c) = match mapGet key c with
                                   | Some _ => mapSize c
                                   | None => S (mapSize c)
                                   end /\
  NoDup (keys (cachePut now key d c)) /\
  (forall later, mapSize (cleanupCache later (cachePut now key d c)) <= MAX_CACHE_SIZE).
Proof.
  intros Hc. unfold cachePut.
  split; [apply mapGet_mapSet_same|].
  split; [intros k Hk; now apply mapGet_mapSet_other|].
  split; [apply mapSize_mapSet|].
  split; [now apply NoDup_mapSet|].
  intros later. rewrite cleanupCache_size by now apply NoDup_mapSet.
  apply Nat.le_min_l.
Qed.

Lemma put_then_cleanup_witness :
  NoDup (keys [("a"%string, {| data := "x"%string; timestamp := 5 |})]) /\
  mapGet "k" (cachePut 7 "k" "v" [("a"%string, {| data := "x"%string; timestamp := 5 |})])
  = Some {| data := "v"%string; timestamp := 7 |}.
Proof.
  assert (H : NoDup (keys [("a"%string, {| data := "x"%string; timestamp := 5 |})])).
  { repeat constructor. simpl. tauto. }
  split; [exact H|].
  exact (proj1 (@put_then_cleanup 7 "k" "v" _ H)).
Defined.

(** With distinct keys, [get] finds a binding exactly when the map holds
    it. *)
Lemma mapGet_In (k : string) (e : entry) (m : jsMap) :
  NoDup (keys m) -> (mapGet k m = Some e <-> In (k, e) m).
Proof.
  induction m as [|[k' v] m IH]; simpl; intros Hm.
  - split; [discriminate|intros []].
  - inversion Hm as [|? ? Hnotin Hm']; subst.
    destruct (String.eqb_spec k' k) as [->|Hne].
    + split.
      * intros [= ->]. now left.
      * intros [[= ->]|Hin]; [reflexivity|].
        exfalso. apply Hnotin. apply (in_map fst) in Hin. exact Hin.
    + rewrite (IH Hm'). split.
      * intros H. now right.
      * intros [[= -> _]|H]; [congruence|assumption].
Qed.

Lemma mapDelete_In (k k' : string) (e : entry) (m : jsMap) :
  In (k', e) (mapDelete k m) <-> In (k', e) m /\ k' <> k.
Proof.
  unfold mapDelete. rewrite filter_In. simpl.
  destruct (String.eqb_spec k' k); simpl; intuition congruence.
Qed.

(** C3: a probe returns a value exactly when the map holds an entry for
    the key with that value and [now - timestamp < CACHE_TTL]; it misses
    exactly when every entry the map holds for the key (there is at most
    one) is at least [CACHE_TTL] old.  An entry that has expired and is
    still in the map behaves as an absent one: the probe, and the reply
    of the handler to a request with that key, are what they are on the
    map from which the entry has been deleted. *)
Theorem cacheGet_hit_iff_live_entry (now : Z) (key : string) (c : jsMap) :
  NoDup (keys c) ->
  (forall v, cacheGet now key c = Some v <->
             exists ts, In (key, {| data := v; timestamp := ts |}) c /\
                        (now - ts < CACHE_TTL)%Z) /\
  (cacheGet now key c = None <->
   forall e, In (key, e) c -> (CACHE_TTL <= now - timestamp e)%Z) /\
  (forall e, In (key, e) c -> (CACHE_TTL <= now - timestamp e)%Z ->
     (forall e', ~ In (key, e') (mapDelete key c)) /\
     cacheGet now key c = cacheGet now key (mapDelete key c) /\
     forall (numberToString : float -> string) (q : featureInfo) (tStore : Z)
            (up : upstream),
       cacheKey numberToString q = key ->
       fst (featureInfoHandler numberToString (Some q) now tStore up c) =
       fst (featureInfoHandler numberToString (Some q) now tStore up
                               (mapDelete key c))).
Proof.
  intros Hc.
  assert (Hdel : cacheGet now key (mapDelete key c) = None)
    by (unfold cacheGet; now rewrite mapGet_mapDelete_same).
  assert (Hold : forall e, In (key, e) c -> (CACHE_TTL <= now - timestamp e)%Z ->
                           cacheGet now key c = None).
  { intros e Hin Hage. apply (proj2 (@mapGet_In key e c Hc)) in Hin.
    unfold cacheGet. rewrite Hin.
    destruct (Z.ltb_spec (now - timestamp e) CACHE_TTL); [lia|reflexivity]. }
  split; [|split].
  - intros v. split.
    + unfold cacheGet. destruct (mapGet key c) as [[d ts]|] eqn:E; [|discriminate].
      simpl. destruct (Z.ltb_spec (now - ts) CACHE_TTL) as [Hlt|]; [|discriminate].
      intros [= <-]. exists ts. split; [|assumption].
      now apply (proj1 (@mapGet_In key _ c Hc)).
    + intros (ts & Hin & Hlt). apply (proj2 (@mapGet_In key _ c Hc)) in Hin.
      unfold cacheGet. rewrite Hin. simpl.
      now rewrite (proj2 (Z.ltb_lt _ _) Hlt).
  - split.
    + intros H e Hin. apply (proj2 (@mapGet_In key e c Hc)) in Hin.
      unfold cacheGet in H. rewrite Hin in H.
      destruct (Z.ltb_spec (now - timestamp e) CACHE_TTL); [discriminate|assumption].
    + intros H. unfold cacheGet. destruct (mapGet key c) as [e|] eqn:E; [|reflexivity].
      apply (proj1 (@mapGet_In key e c Hc)) in E. apply H in E.
      destruct (Z.ltb_spec (now - timestamp e) CACHE_TTL); [lia|reflexivity].
  - intros e Hin Hage.
    assert (Hmiss : cacheGet now key c = None) by now apply (Hold e).
    split; [|split].
    + intros e' H. apply mapDelete_In in H. now destruct H.
    + now rewrite Hmiss, Hdel.
    + intros numberToString q tStore up <-. unfold featureInfoHandler.
      rewrite Hmiss, Hdel. now destruct (awaitUpstream up).
Qed.

Lemma cacheGet_hit_iff_live_entry_witness :
  NoDup (keys [("k", {| data := "old"; timestamp := 0 |});
               ("l", {| data := "new"; timestamp := 299999 |})]) /\
  cacheGet 300000 "l" [("k", {| data := "old"; timestamp := 0 |});
                       ("l", {| data := "new"; timestamp := 299999 |})] = Some "new" /\
  cacheGet 300000 "k" [("k", {| data := "old"; timestamp := 0 |});
                       ("l", {| data := "new"; timestamp := 299999 |})] = None.
Proof.
  assert (Hc : NoDup (keys [("k", {| data := "old"; timestamp := 0 |});
                            ("l", {| data := "new"; timestamp := 299999 |})])).
  { repeat constructor; simpl; intuition discriminate. }
  split; [exact Hc|]. split.
  - apply (proj1 (@cacheGet_hit_iff_live_entry 300000 "l" _ Hc)).
    exists 299999%Z. split; [right; left; reflexivity|reflexivity].
  - apply (proj1 (proj2 (@cacheGet_hit_iff_live_entry 300000 "k" _ Hc))).
    intros e [[= <-]|[[=]|[]]]. simpl. unfold CACHE_TTL. lia.
Defined.

(** The expiry test of the spec, run on the code: an entry put at time
    [t] is a hit at once and a miss [CACHE_TTL] later. *)
Example ttl_expiry (t : Z) :
  cacheGet t "k" (cachePut t "k" "v" []) = Some "v"%string /\
  cacheGet (t + CACHE_TTL) "k" (cachePut t "k" "v" []) = None.
Proof.
  unfold cacheGet, cachePut. simpl.
  replace (t - t)%Z with 0%Z by lia.
  replace (t + CACHE_TTL - t)%Z with CACHE_TTL by lia.
  split; reflexivity.
Qed.

(** C4, at the boundary: the claim has the first phase remove every
    entry with [now - timestamp >= CACHE_TTL]; the loop deletes on
    [now - timestamp > CACHE_TTL].  An entry stored at 1700000000000 is,
    [CACHE_TTL] milliseconds later, expired for a probe, which misses, and
    still in the map after a cleanup pass run at that instant. *)
Theorem cleanup_keeps_entry_aged_ttl :
  let stored := 1700000000000%Z in
  let now := (stored + CACHE_TTL)%Z in
  let c := [("roads-1-2-0,0,1,1-256-256", {| data := "{}"; timestamp := stored |})] in
  (now - stored >= CACHE_TTL)%Z /\
  cacheGet now "roads-1-2-0,0,1,1-256-256" c = None /\
  cleanupCache now c = c.
Proof. cbv zeta. repeat split. vm_compute. discriminate. Qed.

(** The size test of the spec, run on the code: [MAX_CACHE_SIZE + 50]
    requests for distinct keys answered one millisecond apart, then a pass
    one millisecond later, leave the last [MAX_CACHE_SIZE] insertions. *)
Example size_bound_run :
  let c := burst integerToString (MAX_CACHE_SIZE + 50) Z.of_nat in
  mapSize c = MAX_CACHE_SIZE + 50 /\
  cleanupCache 1050 c = skipn 50 c /\
  mapSize (cleanupCache 1050 c) = MAX_CACHE_SIZE.
Proof. vm_compute. repeat split. Qed.

(** C8: on a cache miss, when the upstream call fails (the fetch throws,
    the response is not OK, or its body is not JSON) the handler answers
    500 with the error's message and the cache is what it was; and
    whatever the upstream does, the request changes the cache only by the
    put of a successfully fetched body. *)
Theorem upstream_failure_leaves_cache (numberToString : float -> string)
        (q : featureInfo) (tProbe tStore : Z)
        (up : upstream) (message : string) (c : jsMap) :
  cacheGet tProbe (cacheKey numberToString q) c = None ->
  awaitUpstream up = inl message ->
  featureInfoHandler numberToString (Some q) tProbe tStore up c = (Reply500 message, c) /\
  (forall up',
      snd (featureInfoHandler numberToString (Some q) tProbe tStore up' c) = c \/
      exists body, awaitUpstream up' = inr body /\
                   snd (featureInfoHandler numberToString (Some q) tProbe tStore up' c)
                   = cachePut tStore (cacheKey numberToString q) body c).
Proof.
  intros Hmiss Hfail. unfold featureInfoHandler. rewrite Hmiss, Hfail.
  split; [reflexivity|].
  intros up'. destruct (awaitUpstream up') as [message'|body]; simpl.
  - now left.
  - right. now exists body.
Qed.

Lemma upstream_failure_leaves_cache_witness :
  cacheGet 10 (cacheKey integerToString (requestAt 3)) [] = None /\
  awaitUpstream (ResponseNotOk 503 "Service Unavailable")
  = inl "WMS request failed: 503 Service Unavailable" /\
  featureInfoHandler integerToString (Some (requestAt 3)) 10 11
                     (ResponseNotOk 503 "Service Unavailable") []
  = (Reply500 "WMS request failed: 503 Service Unavailable", []).
Proof.
  split; [reflexivity|]. split; [reflexivity|].
  exact (proj1 (@upstream_failure_leaves_cache integerToString (requestAt 3) 10 11
                  (ResponseNotOk 503 "Service Unavailable")
                  "WMS request failed: 503 Service Unavailable" [] eq_refl eq_refl)).
Defined.

(** ** The cache key *)

Lemma append_assoc (a b c : string) : ((a ++ b) ++ c = a ++ (b ++ c))%string.
Proof. induction a as [|ch a IH]; simpl; [reflexivity|now rewrite IH]. Qed.

Lemma length_append (a b : string) :
  String.length (a ++ b) = String.length a + String.length b.
Proof. induction a as [|ch a IH]; simpl; [reflexivity|now rewrite IH]. Qed.

Lemma append_cancel_l (a s t : string) : (a ++ s = a ++ t)%string -> s = t.
Proof.
  induction a as [|ch a IH]; simpl; intros H; [assumption|].
  injection H as H. now apply IH.
Qed.

Lemma append_cancel_r (a s t : string) : (s ++ a = t ++ a)%string -> s = t.
Proof.
  revert t. induction s as [|ch s IH]; intros t H; destruct t as [|ch' t]; simpl in H.
  - reflexivity.
  - apply (f_equal String.length) in H. simpl in H. rewrite length_append in H. lia.
  - apply (f_equal String.length) in H. simpl in H. rewrite length_append in H. lia.
  - injection H as -> H. f_equal. now apply IH.
Qed.

Lemma join_assoc (a b c : string) : join a (join b c) = join (join a b) c.
Proof. unfold join. rewrite append_assoc. reflexivity. Qed.

Lemma join_cancel_l (a s t : string) : join a s = join a t -> s = t.
Proof. unfold join. intros H. apply append_cancel_l in H. now injection H. Qed.

Lemma join_cancel_r (a s t : string) : join s a = join t a -> s = t.
Proof. unfold join. apply append_cancel_r. Qed.

Lemma hasHyphen_join (a b : string) : hasHyphen (join a b) = true.
Proof.
  unfold join. induction a as [|ch a IH]; simpl; [reflexivity|].
  rewrite IH. apply orb_true_r.
Qed.

(** A separator-free piece on the left of a key is read back without
    ambiguity... *)
Lemma join_split_l (a b s t : string) :
  hasHyphen a = false -> hasHyphen b = false ->
  join a s = join b t -> a = b /\ s = t.
Proof.
  unfold join. revert b.
  induction a as [|ch a IH]; intros b Ha Hb H; destruct b as [|ch' b]; simpl in *.
  - injection H as H. now split.
  - injection H as <- H. discriminate.
  - injection H as -> H. discriminate.
  - injection H as -> H.
    apply orb_false_iff in Ha, Hb. destruct Ha as [_ Ha], Hb as [_ Hb].
    destruct (IH b Ha Hb H) as [-> ->]. now split.
Qed.

(** ... and so is one on the right. *)
Lemma join_split_r (s t a b : string) :
  hasHyphen a = false -> hasHyphen b = false ->
  join s a = join t b -> s = t /\ a = b.
Proof.
  intros Ha Hb. revert t.
  induction s as [|ch s IH]; intros t H; destruct t as [|ch' t].
  - unfold join in H. simpl in H. injection H as H. now split.
  - unfold join in H. simpl in H. injection H as _ H.
    fold (join t b) in H. rewrite H, hasHyphen_join in Ha. discriminate.
  - unfold join in H. simpl in H. injection H as _ H.
    fold (join s a) in H. rewrite <- H, hasHyphen_join in Hb. discriminate.
  - unfold join in H. simpl in H. injection H as -> H.
    destruct (IH t H) as [-> ->]. now split.
Qed.

Lemma cacheKey_join (numberToString : float -> string) (q : featureInfo) :
  cacheKey numberToString q =
  join (layers q)
       (join (numberToString (x q))
             (join (numberToString (y q))
                   (join (bbox q) (join (numberToString (width q))
                                        (numberToString (height q)))))).
Proof. reflexivity. Qed.

(** C2: the key is a function of the six parameters, so the same tuple
    always has the same key; but the pieces are joined by a bare ["-"],
    which [layers] and [bbox] may hold themselves, and two different
    requests can have one key.  The request for layer [roads-1] on the box
    [0,0,1,1] and the request for layer [roads] on the box [1-0,0,1,1],
    both at pixel (1, 1) of a 256 by 256 image, differ in what is asked of
    the upstream and have the same key, so that once the answer to the
    first is stored the second is served that answer for the next
    [CACHE_TTL].  ([numberToString 1] is ["1"], as the built-in prints
    it.) *)
Theorem cacheKey_collision (numberToString : float -> string) :
  numberToString 1%float = "1" ->
  let q1 := {| x := 1; y := 1; bbox := "0,0,1,1"; width := 256; height := 256;
               layers := "roads-1" |} in
  let q2 := {| x := 1; y := 1; bbox := "1-0,0,1,1"; width := 256; height := 256;
               layers := "roads" |} in
  q1 <> q2 /\
  upstreamParams numberToString q1 <> upstreamParams numberToString q2 /\
  cacheKey numberToString q1 = cacheKey numberToString q2 /\
  (forall (t2 t3 t4 : Z) (body : payload) (up : upstream) (c : jsMap),
      (t3 - t2 < CACHE_TTL)%Z ->
      fst (featureInfoHandler numberToString (Some q2) t3 t4 up
             (cachePut t2 (cacheKey numberToString q1) body c)) = ReplyJson body).
Proof.
  intros H1. cbv zeta.
  assert (Hkey : cacheKey numberToString
                   {| x := 1; y := 1; bbox := "0,0,1,1"; width := 256; height := 256;
                      layers := "roads-1" |} =
                 cacheKey numberToString
                   {| x := 1; y := 1; bbox := "1-0,0,1,1"; width := 256; height := 256;
                      layers := "roads" |}).
  { unfold cacheKey. simpl. rewrite H1. reflexivity. }
  split; [|split; [|split]].
  - intros E. apply (f_equal layers) in E. discriminate.
  - intros E. unfold upstreamParams in E. simpl in E. discriminate.
  - exact Hkey.
  - intros t2 t3 t4 body up c Hsoon. unfold featureInfoHandler.
    rewrite <- Hkey. unfold cacheGet, cachePut. rewrite mapGet_mapSet_same. simpl.
    now rewrite (proj2 (Z.ltb_lt _ _) Hsoon).
Qed.

Lemma cacheKey_collision_witness :
  integerToString 1%float = "1" /\
  cacheKey integerToString
    {| x := 1; y := 1; bbox := "0,0,1,1"; width := 256; height := 256;
       layers := "roads-1" |} = "roads-1-1-1-0,0,1,1-256-256" /\
  cacheKey integerToString
    {| x := 1; y := 1; bbox := "1-0,0,1,1"; width := 256; height := 256;
       layers := "roads" |} = "roads-1-1-1-0,0,1,1-256-256" /\
  cacheKey integerToString
    {| x := 1; y := 1; bbox := "0,0,1,1"; width := 256; height := 256;
       layers := "roads-1" |} =
  cacheKey integerToString
    {| x := 1; y := 1; bbox := "1-0,0,1,1"; width := 256; height := 256;
       layers := "roads" |}.
Proof.
  split; [reflexivity|]. split; [reflexivity|]. split; [reflexivity|].
  exact (proj1 (proj2 (proj2 (@cacheKey_collision integerToString eq_refl)))).
Defined.

(* ===================================================================== *)
(** * Part IV. Further properties                                         *)
(* ===================================================================== *)

Unset Implicit Arguments.

(** ** Subsequences *)

Section SubseqFacts.
Variable A : Type.

Lemma Subseq_refl (l : list A) : Subseq l l.
Proof. induction l; constructor; assumption. Qed.

Lemma Subseq_nil_l (l : list A) : Subseq [] l.
Proof. induction l; constructor; assumption. Qed.

Lemma Subseq_trans (l1 l2 l3 : list A) : Subseq l1 l2 -> Subseq l2 l3 -> Subseq l1 l3.
Proof.
  intros H12 H23. revert l1 H12.
  induction H23 as [|a l2 l3 _ IH|a l2 l3 _ IH]; intros l1 H12.
  - assumption.
  - constructor. now apply IH.
  - inversion H12; subst; constructor; now apply IH.
Qed.

Lemma Subseq_filter (f : A -> bool) (l : list A) : Subseq (filter f l) l.
Proof.
  induction l as [|a l IH]; simpl; [constructor|].
  destruct (f a); constructor; assumption.
Qed.

Lemma Subseq_app (l1 l2 k1 k2 : list A) :
  Subseq l1 k1 -> Subseq l2 k2 -> Subseq (l1 ++ l2) (k1 ++ k2).
Proof.
  intros H1 H2. induction H1; simpl; [assumption| |]; constructor; assumption.
Qed.

Lemma Subseq_length (l1 l2 : list A) : Subseq l1 l2 -> length l1 <= length l2.
Proof. induction 1; simpl; lia. Qed.

Lemma Subseq_In (l1 l2 : list A) (a : A) : Subseq l1 l2 -> In a l1 -> In a l2.
Proof.
  induction 1 as [|b l1 l2 _ IH|b l1 l2 _ IH]; simpl; intros H.
  - assumption.
  - right. now apply IH.
  - destruct H as [H|H]; [now left|right; now apply IH].
Qed.

Lemma Subseq_Forall (P : A -> Prop) (l1 l2 : list A) :
  Subseq l1 l2 -> Forall P l2 -> Forall P l1.
Proof.
  intros Hs H. apply Forall_forall. intros a Ha.
  rewrite Forall_forall in H. apply H. now apply (Subseq_In l1 l2 a Hs).
Qed.
End SubseqFacts.

(** ** The cache between sweeps and across requests *)

Lemma mapGet_filter_absent (f : string * entry -> bool) (k : string) (m : jsMap) :
  mapGet k m = None -> mapGet k (filter f m) = None.
Proof.
  induction m as [|[k' v] m IH]; simpl; [reflexivity|].
  destruct (String.eqb k' k) eqn:E; [discriminate|]. intros H.
  destruct (f (k', v)); simpl; [rewrite E|]; now apply IH.
Qed.

(** Looking a key up in a filtered map: the binding of the map, when the
    filter keeps it. *)
Lemma mapGet_filter (f : string * entry -> bool) (k : string) (m : jsMap) :
  NoDup (keys m) ->
  mapGet k (filter f m) = match mapGet k m with
                          | Some e => if f (k, e) then Some e else None
                          | None => None
                          end.
Proof.
  induction m as [|[k' v] m IH]; simpl; intros Hm; [reflexivity|].
  inversion Hm as [|? ? Hnot Hrest]; subst.
  destruct (String.eqb_spec k' k) as [->|Hne].
  - destruct (f (k, v)); simpl.
    + now rewrite String.eqb_refl.
    + apply mapGet_filter_absent. now apply mapGet_none_keys.
  - destruct (f (k', v)); simpl.
    + rewrite (proj2 (String.eqb_neq k' k) Hne). now apply IH.
    + now apply IH.
Qed.

Lemma cacheGet_filter_hit (f : string * entry -> bool) (now : Z) (key : string)
      (m : jsMap) (v : payload) :
  NoDup (keys m) ->
  cacheGet now key (filter f m) = Some v -> cacheGet now key m = Some v.
Proof.
  intros Hm. unfold cacheGet. rewrite mapGet_filter by assumption.
  destruct (mapGet key m) as [e|]; [|discriminate].
  destruct (f (key, e)); [trivial|discriminate].
Qed.

(** X1: what a cleanup pass leaves of a map is a selection of its
    bindings in their insertion order, each aged at most [CACHE_TTL],
    under pairwise distinct keys, and as many as there were such bindings
    up to [MAX_CACHE_SIZE]. *)
Theorem cleanupCache_survivors (now : Z) (m : jsMap) :
  NoDup (keys m) ->
  Subseq (cleanupCache now m) m /\
  Forall (fun kv => (now - timestamp (snd kv) <= CACHE_TTL)%Z) (cleanupCache now m) /\
  NoDup (keys (cleanupCache now m)) /\
  mapSize (cleanupCache now m) = Nat.min MAX_CACHE_SIZE (length (filter (isFresh now) m)).
Proof.
  intros Hm. split; [|split; [|split]].
  - rewrite cleanupCache_spec by assumption. cbv zeta.
    destruct (Nat.ltb _ _).
    + eapply Subseq_trans; apply Subseq_filter.
    + apply Subseq_filter.
  - assert (Hfresh : Forall (fun kv => (now - timestamp (snd kv) <= CACHE_TTL)%Z)
                            (filter (isFresh now) m)).
    { apply Forall_forall. intros kv Hkv. apply filter_In in Hkv.
      destruct Hkv as [_ Hkv]. unfold isFresh in Hkv. lia. }
    rewrite cleanupCache_spec by assumption. cbv zeta.
    destruct (Nat.ltb _ _); [|assumption].
    eapply Subseq_Forall; [apply Subseq_filter|assumption].
  - now apply cleanupCache_NoDup.
  - now apply cleanupCache_size.
Qed.

Lemma cleanupCache_survivors_witness :
  NoDup (keys [("a", {| data := "x"; timestamp := 0 |});
               ("b", {| data := "y"; timestamp := 400000 |})]) /\
  mapSize (cleanupCache 500000 [("a", {| data := "x"; timestamp := 0 |});
                                ("b", {| data := "y"; timestamp := 400000 |})]) = 1.
Proof.
  assert (H : NoDup (keys [("a", {| data := "x"; timestamp := 0 |});
                           ("b", {| data := "y"; timestamp := 400000 |})])).
  { repeat constructor; simpl; intuition discriminate. }
  split; [exact H|].
  exact (proj2 (proj2 (proj2 (cleanupCache_survivors 500000 _ H)))).
Defined.

(** X2: a second cleanup pass at the same instant changes nothing. *)
Theorem cleanupCache_idempotent (now : Z) (m : jsMap) :
  NoDup (keys m) ->
  cleanupCache now (cleanupCache now m) = cleanupCache now m.
Proof.
  intros Hm.
  destruct (cleanupCache_survivors now m Hm) as (_ & Hfresh & Hnd & Hsize).
  rewrite (@cleanupCache_spec now (cleanupCache now m) Hnd). cbv zeta.
  rewrite (@filter_all _ (isFresh now) (cleanupCache now m)).
  - unfold mapSize in Hsize.
    destruct (Nat.ltb_spec MAX_CACHE_SIZE (length (cleanupCache now m))); [lia|reflexivity].
  - revert Hfresh. apply Forall_impl. intros kv H. unfold isFresh.
    now apply Z.leb_le.
Qed.

Lemma cleanupCache_idempotent_witness :
  NoDup (keys [("a", {| data := "x"; timestamp := 0 |})]) /\
  cleanupCache 9 (cleanupCache 9 [("a", {| data := "x"; timestamp := 0 |})])
  = cleanupCache 9 [("a", {| data := "x"; timestamp := 0 |})].
Proof.
  assert (H : NoDup (keys [("a", {| data := "x"; timestamp := 0 |})])).
  { repeat constructor; simpl; intuition. }
  split; [exact H|]. exact (cleanupCache_idempotent 9 _ H).
Defined.

(** X3: a cleanup pass never turns a miss into a hit nor changes what a
    hit returns; and while at most [MAX_CACHE_SIZE] entries are aged at
    most [CACHE_TTL], no probe at that instant can tell that the pass has
    run. *)
Theorem cleanupCache_unseen_by_probes (now : Z) (m : jsMap) :
  NoDup (keys m) ->
  (forall key v, cacheGet now key (cleanupCache now m) = Some v ->
                 cacheGet now key m = Some v) /\
  (length (filter (isFresh now) m) <= MAX_CACHE_SIZE ->
   forall key, cacheGet now key (cleanupCache now m) = cacheGet now key m).
Proof.
  intros Hm. rewrite cleanupCache_spec by assumption. cbv zeta. split.
  - intros key v. destruct (Nat.ltb _ _); intros H.
    + apply cacheGet_filter_hit in H; [|now apply keys_filter_NoDup].
      now apply cacheGet_filter_hit in H.
    + now apply cacheGet_filter_hit in H.
  - intros Hsmall key.
    rewrite (proj2 (Nat.ltb_ge _ _) Hsmall).
    unfold cacheGet. rewrite mapGet_filter by assumption.
    destruct (mapGet key m) as [e|]; [|reflexivity].
    unfold isFresh. simpl.
    destruct (Z.leb_spec (now - timestamp e) CACHE_TTL) as [Hle|Hgt]; [reflexivity|].
    now rewrite (proj2 (Z.ltb_ge _ _)) by lia.
Qed.

Lemma cleanupCache_unseen_by_probes_witness :
  NoDup (keys [("a", {| data := "x"; timestamp := 0 |})]) /\
  length (filter (isFresh 9) [("a", {| data := "x"; timestamp := 0 |})]) <= MAX_CACHE_SIZE /\
  cacheGet 9 "a" (cleanupCache 9 [("a", {| data := "x"; timestamp := 0 |})]) = Some "x".
Proof.
  assert (H : NoDup (keys [("a", {| data := "x"; timestamp := 0 |})])).
  { repeat constructor; simpl; intuition. }
  assert (Hs : length (filter (isFresh 9) [("a", {| data := "x"; timestamp := 0 |})])
               <= MAX_CACHE_SIZE).
  { apply Nat.leb_le. reflexivity. }
  split; [exact H|]. split; [exact Hs|].
  exact (proj2 (cleanupCache_unseen_by_probes 9 _ H) Hs "a").
Defined.

(** X4: the second loop evicts oldest first: an entry aged at most
    [CACHE_TTL] that a cleanup pass removes was stored no later than any
    entry the pass keeps. *)
Theorem eviction_takes_the_oldest (now : Z) (m : jsMap) (gone kept : string * entry) :
  NoDup (keys m) ->
  In gone m -> (now - timestamp (snd gone) <= CACHE_TTL)%Z ->
  ~ In gone (cleanupCache now m) ->
  In kept (cleanupCache now m) ->
  (timestamp (snd gone) <= timestamp (snd kept))%Z.
Proof.
  intros Hm Hin Hage Hgone Hkept.
  apply (@cleanupCache_oldest_first now m gone kept); try assumption.
  apply filter_In. split; [assumption|]. unfold isFresh. now apply Z.leb_le.
Qed.

Lemma eviction_takes_the_oldest_witness :
  NoDup (keys (burst integerToString 1001 Z.of_nat)) /\
  In ("roads-0-0-0,0,1,1-256-256", {| data := "{}"; timestamp := 0 |})
     (burst integerToString 1001 Z.of_nat) /\
  ~ In ("roads-0-0-0,0,1,1-256-256", {| data := "{}"; timestamp := 0 |})
       (cleanupCache 1001 (burst integerToString 1001 Z.of_nat)) /\
  In ("roads-1-0-0,0,1,1-256-256", {| data := "{}"; timestamp := 1 |})
     (cleanupCache 1001 (burst integerToString 1001 Z.of_nat)) /\
  (0 <= 1)%Z.
Proof.
  assert (Hm : NoDup (keys (burst integerToString 1001 Z.of_nat))) by apply burst_NoDup.
  assert (Hin : In ("roads-0-0-0,0,1,1-256-256", {| data := "{}"; timestamp := 0 |})
                   (burst integerToString 1001 Z.of_nat)).
  { apply (nth_error_In _ 0). vm_compute. reflexivity. }
  assert (Hgone : ~ In ("roads-0-0-0,0,1,1-256-256", {| data := "{}"; timestamp := 0 |})
                       (cleanupCache 1001 (burst integerToString 1001 Z.of_nat))).
  { intros H. apply (in_map fst) in H.
    assert (Hk : existsb (String.eqb "roads-0-0-0,0,1,1-256-256")
                         (map fst (cleanupCache 1001
                                     (burst integerToString 1001 Z.of_nat))) = false)
      by (vm_compute; reflexivity).
    apply (eq_true_false_abs _ (proj2 (existsb_exists _ _)
             (ex_intro _ _ (conj H (String.eqb_refl _)))) Hk). }
  assert (Hkept : In ("roads-1-0-0,0,1,1-256-256", {| data := "{}"; timestamp := 1 |})
                     (cleanupCache 1001 (burst integerToString 1001 Z.of_nat))).
  { apply (nth_error_In _ 0). vm_compute. reflexivity. }
  assert (Hage : (1001 - timestamp (snd ("roads-0-0-0,0,1,1-256-256",
                                          {| data := "{}"; timestamp := 0 |}))
                  <= CACHE_TTL)%Z) by (apply Z.leb_le; reflexivity).
  repeat (split; [assumption|]).
  exact (eviction_takes_the_oldest 1001 _ _ _ Hm Hin Hage Hgone Hkept).
Defined.

(** X5: when the entries were inserted in the order of their timestamps
    and all are aged at most [CACHE_TTL], a cleanup pass keeps exactly the
    last [MAX_CACHE_SIZE] insertions, in their order (all of them when
    there are no more than that). *)
Theorem cleanup_keeps_latest_insertions (now : Z) (m : jsMap) :
  NoDup (keys m) ->
  Forall (fun kv => (now - timestamp (snd kv) <= CACHE_TTL)%Z) m ->
  StronglySorted olderEq m ->
  cleanupCache now m = skipn (length m - MAX_CACHE_SIZE) m /\
  (length m <= MAX_CACHE_SIZE -> cleanupCache now m = m).
Proof.
  intros Hm Hfresh Hsorted.
  assert (H : cleanupCache now m = skipn (length m - MAX_CACHE_SIZE) m).
  { apply cleanupCache_keeps_latest; try assumption.
    revert Hfresh. apply Forall_impl. intros kv Hkv. unfold isFresh.
    now apply Z.leb_le. }
  split; [exact H|].
  intros Hsmall. rewrite H. now replace (length m - MAX_CACHE_SIZE) with 0 by lia.
Qed.

Lemma cleanup_keeps_latest_insertions_witness :
  NoDup (keys [("a", {| data := "x"; timestamp := 10 |});
               ("b", {| data := "y"; timestamp := 20 |})]) /\
  cleanupCache 30 [("a", {| data := "x"; timestamp := 10 |});
                   ("b", {| data := "y"; timestamp := 20 |})]
  = [("a", {| data := "x"; timestamp := 10 |}); ("b", {| data := "y"; timestamp := 20 |})].
Proof.
  assert (Hm : NoDup (keys [("a", {| data := "x"; timestamp := 10 |});
                            ("b", {| data := "y"; timestamp := 20 |})])).
  { repeat constructor; simpl; intuition discriminate. }
  split; [exact Hm|].
  apply (proj1 (cleanup_keeps_latest_insertions 30 _ Hm
    ltac:(repeat constructor; simpl; unfold CACHE_TTL; lia)
    ltac:(repeat constructor; unfold olderEq; simpl; lia))).
Defined.

(** X6: a probe after a put, whatever the map held before: the probed key
    gets the value just put for as long as less than [CACHE_TTL] has
    passed since the put, then a miss; any other key gets what it got
    before the put. *)
Theorem cacheGet_after_put (tPut tGet : Z) (key key' : string) (d : payload) (c : jsMap) :
  cacheGet tGet key' (cachePut tPut key d c) =
    if String.eqb key key'
    then (if (tGet - tPut <? CACHE_TTL)%Z then Some d else None)
    else cacheGet tGet key' c.
Proof.
  unfold cacheGet, cachePut.
  destruct (String.eqb_spec key key') as [<-|Hne].
  - now rewrite mapGet_mapSet_same.
  - now rewrite mapGet_mapSet_other by congruence.
Qed.

(** X7: a request that misses and is answered by the upstream stores the
    body, and the same request probed less than [CACHE_TTL] after the
    store is answered with that body from the cache: whatever the
    upstream would do then plays no part, and the cache is not touched. *)
Theorem repeat_request_hits (numberToString : float -> string)
        (q : featureInfo) (t1 t2 t3 t4 : Z) (body : payload)
        (up : upstream) (c : jsMap) :
  cacheGet t1 (cacheKey numberToString q) c = None ->
  (t3 - t2 < CACHE_TTL)%Z ->
  featureInfoHandler numberToString (Some q) t1 t2 (ResponseOk body) c
  = (ReplyJson body, cachePut t2 (cacheKey numberToString q) body c) /\
  featureInfoHandler numberToString (Some q) t3 t4 up
                     (cachePut t2 (cacheKey numberToString q) body c)
  = (ReplyJson body, cachePut t2 (cacheKey numberToString q) body c).
Proof.
  intros Hmiss Hsoon. unfold featureInfoHandler. rewrite Hmiss. simpl.
  split; [reflexivity|].
  unfold cacheGet, cachePut. rewrite mapGet_mapSet_same. simpl.
  now rewrite (proj2 (Z.ltb_lt _ _) Hsoon).
Qed.

Lemma repeat_request_hits_witness :
  cacheGet 100 (cacheKey integerToString (requestAt 3)) [] = None /\
  (250 - 120 < CACHE_TTL)%Z /\
  featureInfoHandler integerToString (Some (requestAt 3)) 250 260 (FetchRejects "down")
                     (cachePut 120 (cacheKey integerToString (requestAt 3)) "{}" [])
  = (ReplyJson "{}", cachePut 120 (cacheKey integerToString (requestAt 3)) "{}" []).
Proof.
  assert (Hs : (250 - 120 < CACHE_TTL)%Z) by (apply Z.ltb_lt; reflexivity).
  split; [reflexivity|]. split; [exact Hs|].
  exact (proj2 (repeat_request_hits integerToString (requestAt 3) 100 120 250 260 "{}"
                  (FetchRejects "down") [] eq_refl Hs)).
Defined.

(** X8: a request never evicts: it leaves the cache as it is or adds one
    entry, and the binding of every key other than the request's own is
    after the request what it was before. *)
Theorem request_never_evicts (numberToString : float -> string)
        (query : option featureInfo) (tProbe tStore : Z)
        (up : upstream) (c : jsMap) :
  (mapSize (snd (featureInfoHandler numberToString query tProbe tStore up c))
   = mapSize c \/
   mapSize (snd (featureInfoHandler numberToString query tProbe tStore up c))
   = S (mapSize c)) /\
  (forall k, mapGet k (snd (featureInfoHandler numberToString query tProbe tStore up c))
             = mapGet k c \/
             exists q, query = Some q /\ k = cacheKey numberToString q /\
                       mapGet k c = None \/
                       query = Some q /\ k = cacheKey numberToString q /\
                       exists e, mapGet k c = Some e /\
                                 (CACHE_TTL <= tProbe - timestamp e)%Z).
Proof.
  unfold featureInfoHandler.
  destruct query as [q|]; [|split; [now left|intros k; now left]].
  destruct (cacheGet tProbe (cacheKey numberToString q) c) as [hit|] eqn:Hprobe;
    [split; [now left|intros k; now left]|].
  destruct (awaitUpstream up) as [msg|body]; simpl;
    [split; [now left|intros k; now left]|].
  split.
  - unfold cachePut. rewrite mapSize_mapSet.
    destruct (mapGet (cacheKey numberToString q) c); [now left|now right].
  - intros k. destruct (String.eqb_spec k (cacheKey numberToString q)) as [->|Hne].
    + right. exists q. unfold cacheGet in Hprobe.
      destruct (mapGet (cacheKey numberToString q) c) as [e|] eqn:He; [right|left; auto].
      repeat split. exists e. split; [reflexivity|].
      destruct (Z.ltb_spec (tProbe - timestamp e) CACHE_TTL); [discriminate|assumption].
    + left. unfold cachePut. now apply mapGet_mapSet_other.
Qed.

(** *** Reading a key back *)

Lemma hasHyphen_append (a b : string) :
  hasHyphen (a ++ b) = hasHyphen a || hasHyphen b.
Proof.
  induction a as [|ch a IH]; simpl; [reflexivity|].
  now rewrite IH, orb_assoc.
Qed.

Lemma endsWithDigit_cons (ch : ascii) (s : string) :
  s <> EmptyString -> endsWithDigit (String ch s) = endsWithDigit s.
Proof. destruct s; [congruence|reflexivity]. Qed.

Lemma endsWithDigit_nonempty (s : string) : endsWithDigit s = true -> s <> EmptyString.
Proof. destruct s; [discriminate|discriminate]. Qed.

(** The end of a key piece is the end of what is joined last. *)
Lemma endsWithDigit_join (a b : string) :
  endsWithDigit b = true -> endsWithDigit (join a b) = true.
Proof.
  intros Hb. unfold join. induction a as [|ch a IH]; simpl.
  - destruct b; [discriminate|assumption].
  - destruct (a ++ String "-" b)%string eqn:E; [|assumption].
    destruct a; discriminate.
Qed.

(** A separator after a piece that ends with a digit is a ["-"] right
    after a digit. *)
Lemma digitThenHyphen_join (u b : string) :
  endsWithDigit u = true -> digitThenHyphen (join u b) = true.
Proof.
  unfold join. induction u as [|ch u IH]; [discriminate|].
  intros H. destruct u as [|ch' u].
  - simpl in *. now rewrite H.
  - rewrite endsWithDigit_cons in H by discriminate.
    specialize (IH H). simpl in *. rewrite IH. apply orb_true_r.
Qed.

(** The last ["-"] that follows a digit marks where [bbox] begins, when
    [bbox] has no such ["-"] itself. *)
Lemma join_split_at_last_digit (u1 u2 b1 b2 : string) :
  endsWithDigit u1 = true -> endsWithDigit u2 = true ->
  digitThenHyphen b1 = false -> digitThenHyphen b2 = false ->
  join u1 b1 = join u2 b2 -> u1 = u2 /\ b1 = b2.
Proof.
  revert u2. induction u1 as [|c1 u1 IH]; intros u2 H1 H2 Hb1 Hb2 H; [discriminate|].
  destruct u2 as [|c2 u2]; [discriminate|].
  unfold join in H. simpl in H. injection H as -> H.
  destruct u1 as [|d1 u1], u2 as [|d2 u2].
  - simpl in H. injection H as ->. now split.
  - simpl in H. injection H as <- H.
    rewrite endsWithDigit_cons in H2 by discriminate.
    destruct u2 as [|e2 u2]; [discriminate|].
    rewrite endsWithDigit_cons in H2 by discriminate.
    rewrite H in Hb1. fold (join (String e2 u2) b2) in Hb1.
    now rewrite digitThenHyphen_join in Hb1.
  - simpl in H. injection H as -> H.
    rewrite endsWithDigit_cons in H1 by discriminate.
    destruct u1 as [|e1 u1]; [discriminate|].
    rewrite endsWithDigit_cons in H1 by discriminate.
    rewrite <- H in Hb2. fold (join (String e1 u1) b1) in Hb2.
    now rewrite digitThenHyphen_join in Hb2.
  - rewrite endsWithDigit_cons in H1, H2 by discriminate.
    destruct (IH (String d2 u2) H1 H2 Hb1 Hb2 H) as [E ->]. rewrite E. now split.
Qed.

(** X9: when are two requests served from one cache entry?  The numerals
    of a query hold no ["-"] and end with a digit (so the built-in prints
    a non-negative integer, in plain or in exponent notation).  Then two
    requests with the same key are the same request to the upstream (the
    same [layers], the same [bbox], the same numerals) as soon as neither
    [layers] holds a ["-"], or neither [bbox] holds a ["-"] right after a
    digit, which no list of numbers separated by commas does.  They are
    the same tuple where different numbers have different numerals (as
    they have, [0] and [-0] apart, which print alike and are [===]). *)
Theorem cacheKey_shared_by_same_request (numberToString : float -> string)
        (q1 q2 : featureInfo) :
  (forall v, In v (numbersOf q1 ++ numbersOf q2) -> numeral (numberToString v) = true) ->
  (hasHyphen (layers q1) = false /\ hasHyphen (layers q2) = false) \/
  (digitThenHyphen (bbox q1) = false /\ digitThenHyphen (bbox q2) = false) ->
  cacheKey numberToString q1 = cacheKey numberToString q2 ->
  layers q1 = layers q2 /\ bbox q1 = bbox q2 /\
  upstreamParams numberToString q1 = upstreamParams numberToString q2 /\
  ((forall a b, numberToString a = numberToString b -> a = b) -> q1 = q2).
Proof.
  intros Hnum Htext Hkey.
  assert (Hh : forall v, In v (numbersOf q1 ++ numbersOf q2) ->
                         hasHyphen (numberToString v) = false).
  { intros v Hv. apply Hnum in Hv. unfold numeral in Hv.
    apply andb_true_iff in Hv. destruct Hv as [Hv _]. now apply negb_true_iff. }
  assert (Hd : forall v, In v (numbersOf q1 ++ numbersOf q2) ->
                         endsWithDigit (numberToString v) = true).
  { intros v Hv. apply Hnum in Hv. unfold numeral in Hv.
    apply andb_true_iff in Hv. now destruct Hv. }
  rewrite !cacheKey_join in Hkey. unfold upstreamParams.
  destruct q1 as [x1 y1 b1 w1 h1 l1], q2 as [x2 y2 b2 w2 h2 l2].
  unfold numbersOf in Hh, Hd. simpl in *.
  assert (Hx1 := Hh x1 ltac:(tauto)). assert (Hy1 := Hh y1 ltac:(tauto)).
  assert (Hw1 := Hh w1 ltac:(tauto)). assert (Hh1 := Hh h1 ltac:(tauto)).
  assert (Hx2 := Hh x2 ltac:(tauto)). assert (Hy2 := Hh y2 ltac:(tauto)).
  assert (Hw2 := Hh w2 ltac:(tauto)). assert (Hh2 := Hh h2 ltac:(tauto)).
  assert (Dy1 := Hd y1 ltac:(tauto)). assert (Dy2 := Hd y2 ltac:(tauto)).
  assert (E : l1 = l2 /\ numberToString x1 = numberToString x2 /\
              numberToString y1 = numberToString y2 /\ b1 = b2 /\
              numberToString w1 = numberToString w2 /\
              numberToString h1 = numberToString h2).
  { destruct Htext as [[Hl1 Hl2]|[Hb1 Hb2]].
    - apply (@join_split_l _ _ _ _ Hl1 Hl2) in Hkey. destruct Hkey as [El H].
      apply (@join_split_l _ _ _ _ Hx1 Hx2) in H. destruct H as [Ex H].
      apply (@join_split_l _ _ _ _ Hy1 Hy2) in H. destruct H as [Ey H].
      rewrite !join_assoc in H.
      apply (@join_split_r _ _ _ _ Hh1 Hh2) in H. destruct H as [H Eh].
      apply (@join_split_r _ _ _ _ Hw1 Hw2) in H. destruct H as [Eb Ew].
      now repeat split.
    - rewrite !join_assoc in Hkey.
      apply (@join_split_r _ _ _ _ Hh1 Hh2) in Hkey. destruct Hkey as [H Eh].
      apply (@join_split_r _ _ _ _ Hw1 Hw2) in H. destruct H as [H Ew].
      apply join_split_at_last_digit in H;
        [|now apply endsWithDigit_join|now apply endsWithDigit_join|assumption|assumption].
      destruct H as [H Eb].
      apply (@join_split_r _ _ _ _ Hy1 Hy2) in H. destruct H as [H Ey].
      apply (@join_split_r _ _ _ _ Hx1 Hx2) in H. destruct H as [El Ex].
      now repeat split. }
  destruct E as (El & Ex & Ey & Eb & Ew & Eh).
  split; [exact El|]. split; [exact Eb|]. split.
  - now rewrite El, Ex, Ey, Eb, Ew, Eh.
  - intros Hinj. apply Hinj in Ex, Ey, Ew, Eh. now subst.
Qed.

Lemma cacheKey_shared_by_same_request_witness :
  (forall v, In v (numbersOf (requestAt 7) ++ numbersOf (requestAt 8)) ->
             numeral (integerToString v) = true) /\
  digitThenHyphen (bbox (requestAt 7)) = false /\
  digitThenHyphen (bbox (requestAt 8)) = false /\
  cacheKey integerToString (requestAt 7) <> cacheKey integerToString (requestAt 8).
Proof.
  assert (Hnum : forall v, In v (numbersOf (requestAt 7) ++ numbersOf (requestAt 8)) ->
                           numeral (integerToString v) = true).
  { intros v Hv. simpl in Hv.
    repeat (destruct Hv as [<-|Hv]; [vm_compute; reflexivity|]). destruct Hv. }
  split; [exact Hnum|]. split; [reflexivity|]. split; [reflexivity|].
  intros E.
  apply (cacheKey_shared_by_same_request integerToString (requestAt 7) (requestAt 8) Hnum
           (or_intror (conj eq_refl eq_refl))) in E.
  destruct E as (_ & _ & E & _). vm_compute in E. discriminate.
Defined.

(* --------------------------------------------------------------------- *)
(** ** Further properties of the geometry normaliser                      *)
(* --------------------------------------------------------------------- *)

Section TraverseFacts.
Variables A B : Type.

Lemma traverseOpt_none (f : A -> option B) (l : list A) :
  traverseOpt f l = None <-> exists a, In a l /\ f a = None.
Proof.
  induction l as [|a l IH]; simpl.
  - split; [discriminate|intros (a & [] & _)].
  - destruct (f a) as [b|] eqn:Ea; simpl.
    + destruct (traverseOpt f l) as [bs|]; simpl.
      * split; [discriminate|]. intros (a' & [<-|Hin] & Ha'); [congruence|].
        assert (H : @None (list B) = None) by reflexivity.
        destruct IH as [_ IH]. discriminate IH. now exists a'.
      * split; [|reflexivity]. intros _.
        destruct IH as [IH _]. destruct (IH eq_refl) as (a' & Hin & Ha').
        exists a'. split; [now right|assumption].
    + split; [|reflexivity]. intros _. exists a. split; [now left|assumption].
Qed.
End TraverseFacts.

Lemma ensureClosed_none (r : ring) : ensureClosed r = None <-> r = [].
Proof.
  split; [|intros ->; reflexivity].
  destruct r as [|first r]; [reflexivity|]. intros H.
  rewrite ensureClosed_closeIfOpen in H by discriminate. discriminate.
Qed.

(** ** The pipeline on the call stack *)

Section TraverseValue.
Variables A B : Type.

Lemma traverseOpt_value (f : A -> option B) (g : A -> B) (l : list A) (bs : list B) :
  (forall a b, In a l -> f a = Some b -> b = g a) ->
  traverseOpt f l = Some bs -> bs = map g l.
Proof.
  revert bs. induction l as [|a l IH]; simpl; intros bs Hf H.
  - now inversion H.
  - destruct (f a) as [b|] eqn:Ea; [|discriminate]. simpl in H.
    destruct (traverseOpt f l) as [bs'|]; [|discriminate]. simpl in H.
    inversion H; subst. f_equal.
    + apply Hf; [now left|assumption].
    + apply IH; [|reflexivity]. intros a' b' Hin. apply Hf. now right.
Qed.
End TraverseValue.

(** When the reduction returns, it returns the array of the value-level
    function. *)
Lemma reduceOnStack_value (frames : nat) (r s : list coordPair) (sqTol : float) :
  reduceOnStack frames r sqTol = Some s -> s = reduce r sqTol.
Proof.
  destruct r as [|r0 r']; [intros H; now inversion H|].
  unfold reduceOnStack, reduce. cbv zeta.
  destruct (simplifyDPOnStack _ _ _ _ _ _ _) as [s1|] eqn:Es; [|discriminate].
  cbn [bindOpt]. intros H. inversion H.
  now rewrite (@simplifyDPOnStack_value (r0 :: r') r0 frames (length (r0 :: r')) 0
                 (length (r0 :: r') - 1) sqTol _ s1 Es) by lia.
Qed.

(** It returns whenever the stack has room for as many activations as the
    array has pairs. *)
Lemma reduceOnStack_enough (frames : nat) (r : list coordPair) (sqTol : float) :
  1 <= frames -> length r - 1 <= frames ->
  reduceOnStack frames r sqTol = Some (reduce r sqTol).
Proof.
  intros H1 Hf. destruct r as [|r0 r']; [reflexivity|].
  unfold reduceOnStack, reduce. cbv zeta.
  rewrite (@simplifyDPOnStack_enough (r0 :: r') r0 frames 0 (length (r0 :: r') - 1))
    by lia.
  cbn [bindOpt].
  now rewrite (@simplifyDP_fuel_enough (r0 :: r') r0 frames (length (r0 :: r'))
                 0 (length (r0 :: r') - 1) sqTol) by lia.
Qed.

Lemma simplifyRingOnStack_value (frames : nat) (R r : ring) (tol : float) :
  simplifyRingOnStack frames R tol = Some r -> r = simplifyRing R tol.
Proof.
  unfold simplifyRingOnStack, simplifyRing.
  destruct (Nat.leb (length R) 4); [intros H; now inversion H|]. cbv zeta.
  destruct (reduceOnStack frames (closeIfOpen R) (tol * tol)) as [s|] eqn:Es;
    [|discriminate].
  apply reduceOnStack_value in Es. subst s. cbn [bindOpt].
  intros H. now inversion H.
Qed.

(** [simplifyRing] returns whenever the stack has room for one activation
    per pair of the ring. *)
Lemma simplifyRingOnStack_enough (frames : nat) (R : ring) (tol : float) :
  length R <= frames ->
  simplifyRingOnStack frames R tol = Some (simplifyRing R tol).
Proof.
  intros Hf. unfold simplifyRingOnStack, simplifyRing.
  destruct (Nat.leb_spec (length R) 4) as [Hs|Hl]; [reflexivity|]. cbv zeta.
  assert (Hlen : length (closeIfOpen R) <= S (length R)).
  { rewrite closeIfOpen_spec. destruct (ringClosed R); [lia|].
    rewrite length_app. destruct R; simpl; lia. }
  now rewrite reduceOnStack_enough by lia.
Qed.

Lemma simplifyGeometryOnStack_value (frames : nat) (g g2 : geometry) (tol : float) :
  simplifyGeometryOnStack frames g tol = Some g2 -> g2 = simplifyGeometry g tol.
Proof.
  assert (Hrings : forall rings rs,
             traverseOpt (fun r => simplifyRingOnStack frames r tol) rings = Some rs ->
             rs = map (fun r => simplifyRing r tol) rings).
  { intros rings rs. apply traverseOpt_value.
    intros a b _. apply simplifyRingOnStack_value. }
  destruct g as [p|rings|polys]; simpl.
  - intros H. now inversion H.
  - destruct (traverseOpt _ rings) as [rs|] eqn:E; [|discriminate].
    simpl. intros H. inversion H. f_equal. now apply Hrings.
  - destruct (traverseOpt _ polys) as [ps|] eqn:E; [|discriminate].
    simpl. intros H. inversion H. f_equal.
    revert E. apply traverseOpt_value. intros poly rs _. apply Hrings.
Qed.

Lemma simplifyGeometryOnStack_enough (frames : nat) (g : geometry) (tol : float) :
  Forall (fun r => length r <= frames) (ringsOf g) ->
  simplifyGeometryOnStack frames g tol = Some (simplifyGeometry g tol).
Proof.
  assert (Hrings : forall rings, Forall (fun r => length r <= frames) rings ->
             traverseOpt (fun r => simplifyRingOnStack frames r tol) rings =
             Some (map (fun r => simplifyRing r tol) rings)).
  { intros rings H. apply traverseOpt_total. revert H. apply Forall_impl.
    intros r. apply simplifyRingOnStack_enough. }
  destruct g as [p|rings|polys]; simpl; intros H.
  - reflexivity.
  - now rewrite Hrings.
  - rewrite (traverseOpt_total _ (map (fun r => simplifyRing r tol))); [reflexivity|].
    apply Forall_forall. intros poly Hp. apply Hrings.
    rewrite Forall_forall in *. intros r Hr. apply H. apply in_concat. now exists poly.
Qed.

(** The rings [closeRings] hands on are at most one pair longer. *)
Lemma closeRings_lengths (frames : nat) (g g1 : geometry) :
  closeRings g = Some g1 ->
  Forall (fun r => length r < frames) (ringsOf g) ->
  Forall (fun r => length r <= frames) (ringsOf g1).
Proof.
  assert (Hring : forall r r1, ensureClosed r = Some r1 -> length r < frames ->
                               length r1 <= frames).
  { intros r r1 H Hl.
    assert (Hne : r <> []) by (intros ->; discriminate).
    rewrite ensureClosed_closeIfOpen in H by assumption.
    assert (E : r1 = closeIfOpen r) by congruence.
    rewrite E, closeIfOpen_spec. destruct (ringClosed r); [lia|].
    rewrite length_app. destruct r; simpl in *; lia. }
  assert (Hrings : forall rings rs, traverseOpt ensureClosed rings = Some rs ->
             Forall (fun r => length r < frames) rings ->
             Forall (fun r => length r <= frames) rs).
  { induction rings as [|r rings IH]; simpl; intros rs H Hall.
    - inversion H. constructor.
    - destruct (ensureClosed r) as [r1|] eqn:E; [|discriminate]. simpl in H.
      destruct (traverseOpt ensureClosed rings) as [rs'|]; [|discriminate].
      simpl in H. inversion H; subst. inversion Hall; subst.
      constructor; [now apply (Hring r)|now apply IH]. }
  destruct g as [p|rings|polys]; simpl.
  - intros H _. inversion H. constructor.
  - destruct (traverseOpt ensureClosed rings) as [rs|] eqn:E; [|discriminate].
    simpl. intros H. inversion H. simpl. now apply Hrings.
  - destruct (traverseOpt _ polys) as [ps|] eqn:E; [|discriminate].
    simpl. intros H. inversion H. simpl. clear H H1. revert ps E.
    induction polys as [|poly polys IH]; simpl; intros ps E Hall.
    + inversion E. constructor.
    + destruct (traverseOpt ensureClosed poly) as [rs|] eqn:Er; [|discriminate].
      simpl in E.
      destruct (traverseOpt (traverseOpt ensureClosed) polys) as [ps'|];
        [|discriminate].
      simpl in E. inversion E; subst. simpl.
      apply Forall_app in Hall. destruct Hall as [H1 H2].
      apply Forall_app. split; [now apply (Hrings poly)|now apply IH].
Qed.

(** X10: the two ways of the close-simplify-check pipeline into the
    handler's [catch].  [closeRings] throws exactly when the geometry has
    an empty ring (its [ring[0]] is then [undefined]), and the request is
    then answered 500 whatever the stack.  Otherwise the pipeline ends in
    the [catch] exactly when the recursion of [simplifyDP] on a closed
    ring is deeper than the call stack; it does not when the stack has
    room for more activations than the longest ring has pairs. *)
Theorem closeRings_throws_iff_empty_ring (g : geometry) (frames : nat) :
  (closeRings g = None <-> In [] (ringsOf g)) /\
  (normalize frames g = ServerError <->
   In [] (ringsOf g) \/
   exists g1, closeRings g = Some g1 /\
              simplifyGeometryOnStack frames g1 defaultToleranceDeg = None) /\
  (Forall (fun r => length r < frames) (ringsOf g) ->
   (normalize frames g = ServerError <-> In [] (ringsOf g))).
Proof.
  assert (Hrings : forall rings : list ring,
             traverseOpt ensureClosed rings = None <-> In [] rings).
  { intros rings. rewrite traverseOpt_none. split.
    - intros (r & Hin & Hr). apply ensureClosed_none in Hr. now subst.
    - intros Hin. exists []. now split. }
  assert (Hclose : closeRings g = None <-> In [] (ringsOf g)).
  { destruct g as [p|rings|polys]; simpl.
    - split; [discriminate|intros []].
    - destruct (traverseOpt ensureClosed rings) eqn:E; simpl.
      + split; [discriminate|]. intros H. apply Hrings in H. congruence.
      + split; [|reflexivity]. intros _. now apply Hrings.
    - destruct (traverseOpt (traverseOpt ensureClosed) polys) eqn:E; simpl.
      + split; [discriminate|]. intros H. apply in_concat in H.
        destruct H as (poly & Hpoly & Hin).
        assert (Hn : traverseOpt (traverseOpt ensureClosed) polys = None).
        { apply traverseOpt_none. exists poly. split; [assumption|now apply Hrings]. }
        congruence.
      + split; [|reflexivity]. intros _. apply traverseOpt_none in E.
        destruct E as (poly & Hpoly & Hn). apply in_concat. exists poly.
        split; [assumption|now apply Hrings]. }
  split; [exact Hclose|]. split.
  - rewrite <- Hclose. unfold normalize.
    destruct (closeRings g) as [g1|]; [|tauto].
    destruct (simplifyGeometryOnStack frames g1 defaultToleranceDeg) as [g2|] eqn:E.
    + split.
      * destruct (coordsOutOfBounds g2); discriminate.
      * intros [H|(g1' & H1 & H2)]; [discriminate|]. inversion H1; subst. congruence.
    + split; [|reflexivity]. intros _. right. now exists g1.
  - intros Hlen. rewrite <- Hclose. unfold normalize.
    destruct (closeRings g) as [g1|] eqn:E; [|tauto].
    rewrite simplifyGeometryOnStack_enough by now apply (closeRings_lengths frames g).
    split; [|discriminate].
    destruct (coordsOutOfBounds _); discriminate.
Qed.

(** The [RangeError] does happen: a closed ring of six pairs whose
    reduction nests three activations of [simplifyDP] is accepted on a
    stack with room for three and answered 500 on a stack with room for
    two. *)
Remark normalize_overflows_small_stack :
  geometrySchema
    (Polygon [[(0, 0); (1, 1); (2, 0); (3, 3); (0, 3); (0, 0)]%float]) = true /\
  validateBounds
    (Polygon [[(0, 0); (1, 1); (2, 0); (3, 3); (0, 3); (0, 0)]%float]) = true /\
  normalize 3 (Polygon [[(0, 0); (1, 1); (2, 0); (3, 3); (0, 3); (0, 0)]%float])
  = Accepted (Polygon [[(0, 0); (1, 1); (2, 0); (3, 3); (0, 3); (0, 0)]%float]) /\
  normalize 2 (Polygon [[(0, 0); (1, 1); (2, 0); (3, 3); (0, 3); (0, 0)]%float])
  = ServerError.
Proof. repeat split. Qed.

Lemma ringSchema_closeIfOpen (r : ring) :
  ringSchema r = true -> ringSchema (closeIfOpen r) = true.
Proof.
  intros H. rewrite closeIfOpen_spec. destruct (ringClosed r); [assumption|].
  unfold ringSchema in *. apply andb_true_iff in H. destruct H as [Hp Hn].
  apply andb_true_iff. split.
  - rewrite forallb_app, Hp. simpl.
    destruct r as [|first r]; [reflexivity|]. simpl in *.
    apply andb_true_iff in Hp. destruct Hp as [-> _]. reflexivity.
  - apply Nat.leb_le. apply Nat.leb_le in Hn. rewrite length_app. lia.
Qed.

Lemma closeIfOpen_idempotent (r : ring) :
  ringSchema r = true -> closeIfOpen (closeIfOpen r) = closeIfOpen r.
Proof.
  intros H. rewrite (closeIfOpen_spec (closeIfOpen r)).
  now rewrite closeIfOpen_closed.
Qed.

(** X11: closing is idempotent: on a geometry the schema accepts,
    [closeRings] succeeds, its result is accepted by the schema again, and
    closing the result once more returns it as it is. *)
Theorem closeRings_idempotent (g : geometry) :
  geometrySchema g = true ->
  exists g1, closeRings g = Some g1 /\
             geometrySchema g1 = true /\
             closeRings g1 = Some g1.
Proof.
  intros Hs. rewrite closeRings_total by assumption. eexists. split; [reflexivity|].
  assert (Hvalid : forall rings, forallb ringSchema rings = true ->
                   forallb ringSchema (map closeIfOpen rings) = true).
  { intros rings H. apply forallb_forall. intros r Hr.
    apply in_map_iff in Hr. destruct Hr as (r0 & <- & Hr0).
    apply ringSchema_closeIfOpen. now apply (proj1 (forallb_forall _ _) H). }
  assert (Hidem : forall rings, forallb ringSchema rings = true ->
                  map closeIfOpen (map closeIfOpen rings) = map closeIfOpen rings).
  { intros rings H. rewrite map_map. apply map_ext_in. intros r Hr.
    apply closeIfOpen_idempotent. now apply (proj1 (forallb_forall _ _) H). }
  destruct g as [p|rings|polys]; simpl in Hs.
  - split; [assumption|reflexivity].
  - assert (Hs1 : geometrySchema (Polygon (map closeIfOpen rings)) = true)
      by now apply Hvalid.
    split; [assumption|]. rewrite closeRings_total by assumption.
    now rewrite Hidem.
  - assert (Hs1 : geometrySchema (MultiPolygon (map (map closeIfOpen) polys)) = true).
    { simpl. apply forallb_forall. intros poly Hp.
      apply in_map_iff in Hp. destruct Hp as (p0 & <- & Hp0).
      apply Hvalid. now apply (proj1 (forallb_forall _ _) Hs). }
    split; [assumption|]. rewrite closeRings_total by assumption.
    f_equal. f_equal. rewrite map_map. apply map_ext_in. intros poly Hp.
    apply Hidem. now apply (proj1 (forallb_forall _ _) Hs).
Qed.

Lemma closeRings_idempotent_witness :
  geometrySchema (Polygon [[(0, 0); (1, 0); (1, 1); (0, 1)]%float]) = true /\
  exists g1, closeRings (Polygon [[(0, 0); (1, 0); (1, 1); (0, 1)]%float]) = Some g1 /\
             geometrySchema g1 = true /\
             closeRings g1 = Some g1.
Proof.
  split; [reflexivity|].
  exact (closeRings_idempotent (Polygon [[(0, 0); (1, 0); (1, 1); (0, 1)]%float]) eq_refl).
Defined.

(** ** What [simplifyDP] pushes *)

Section SliceFacts.
Variable A : Type.

Lemma firstn_add (n m : nat) (l : list A) :
  firstn (n + m) l = firstn n l ++ firstn m (skipn n l).
Proof.
  revert l. induction n as [|n IH]; intros l; simpl; [reflexivity|].
  destruct l as [|a l]; simpl.
  - now rewrite firstn_nil.
  - now rewrite IH.
Qed.

Lemma slice_split (a b c : nat) (l : list A) :
  a <= b -> b <= c -> slice A a c l = slice A a b l ++ slice A b c l.
Proof.
  intros Hab Hbc. unfold slice.
  replace (c - a) with ((b - a) + (c - b)) by lia.
  rewrite firstn_add, skipn_skipn.
  now replace (b - a + a) with b by lia.
Qed.

Lemma slice_one (i : nat) (l : list A) (d : A) :
  i < length l -> slice A i (S i) l = [nth i l d].
Proof.
  unfold slice. replace (S i - i) with 1 by lia.
  revert i. induction l as [|a l IH]; intros i Hi; simpl in Hi; [lia|].
  destruct i as [|i]; simpl; [reflexivity|].
  apply IH. lia.
Qed.

Lemma slice_all (l : list A) : slice A 0 (length l) l = l.
Proof. unfold slice. rewrite Nat.sub_0_r. simpl. apply firstn_all. Qed.
End SliceFacts.

Lemma simplifyDP_selects (points : list coordPair) (d : coordPair) (fuel : nat)
      (first last : nat) (sqTol : float) :
  last < length points ->
  Subseq (simplifyDP points d fuel first last sqTol [])
         (slice coordPair (S first) last points).
Proof.
  revert first last. induction fuel as [|fuel IH]; intros first last Hlast; simpl.
  - apply Subseq_nil_l.
  - destruct (scan points d first last sqTol) as [m index] eqn:Hscan.
    destruct ((sqTol <? m)%float && truthy index); [|apply Subseq_nil_l].
    destruct index as [idx|]; [|apply Subseq_nil_l].
    apply scan_index_range in Hscan.
    rewrite (slice_split _ (S first) idx last) by lia.
    rewrite (slice_split _ idx (S idx) last) by lia.
    rewrite (slice_one _ idx points d) by lia.
    assert (H1 : Subseq (if Nat.ltb 1 (idx - first)
                         then simplifyDP points d fuel first idx sqTol []
                         else [])
                        (slice coordPair (S first) idx points)).
    { destruct (Nat.ltb 1 (idx - first)); [apply IH; lia|apply Subseq_nil_l]. }
    assert (H2 : Subseq (if Nat.ltb 1 (last - idx)
                         then simplifyDP points d fuel idx last sqTol []
                         else [])
                        (slice coordPair (S idx) last points)).
    { destruct (Nat.ltb 1 (last - idx)); [apply IH; lia|apply Subseq_nil_l]. }
    destruct (Nat.ltb 1 (last - idx)).
    + rewrite simplifyDP_pushes. rewrite <- app_assoc.
      apply Subseq_app; [assumption|].
      apply (Subseq_app _ [at_ points d idx] _ [nth idx points d]);
        [apply Subseq_refl|assumption].
    + apply Subseq_app; [assumption|].
      rewrite <- (app_nil_r [at_ points d idx]).
      apply (Subseq_app _ [at_ points d idx] _ [nth idx points d]);
        [apply Subseq_refl|assumption].
Qed.

Lemma reduce_selects (r : list coordPair) (sqTol : float) :
  2 <= length r -> Subseq (reduce r sqTol) r.
Proof.
  intros Hlen. destruct r as [|r0 r]; [simpl in Hlen; lia|].
  unfold reduce. rewrite simplifyDP_pushes.
  set (n := length (r0 :: r)) in *.
  rewrite <- (slice_all _ (r0 :: r)) at 4. fold n.
  rewrite (slice_split _ 0 1 n) by lia.
  rewrite (slice_split _ 1 (n - 1) n) by lia.
  rewrite (slice_one _ 0 (r0 :: r) r0) by (fold n; lia).
  replace (slice coordPair (n - 1) n (r0 :: r)) with [nth (n - 1) (r0 :: r) r0].
  - rewrite <- app_assoc.
    apply Subseq_app; [apply Subseq_refl|].
    apply Subseq_app; [|apply Subseq_refl].
    apply simplifyDP_selects. fold n. lia.
  - symmetry.
    transitivity (slice coordPair (n - 1) (S (n - 1)) (r0 :: r));
      [f_equal; lia|apply slice_one; fold n; lia].
Qed.

Lemma Subseq_snoc (A : Type) (l : list A) (a : A) : Subseq l (l ++ [a]).
Proof.
  rewrite <- (app_nil_r l) at 1. apply Subseq_app; [apply Subseq_refl|].
  apply Subseq_nil_l.
Qed.

Lemma simplifyRing_selects_closed (R : ring) (tol : float) :
  Subseq (simplifyRing R tol) (closeIfOpen R).
Proof.
  destruct (Nat.le_gt_cases (length R) 4) as [Hs|Hl].
  - rewrite simplifyRing_short by assumption.
    rewrite closeIfOpen_spec. destruct (ringClosed R); [apply Subseq_refl|].
    destruct R as [|first R]; [apply Subseq_refl|]. apply Subseq_snoc.
  - rewrite simplifyRing_long by assumption.
    destruct (Nat.ltb _ 4); [apply Subseq_refl|].
    apply reduce_selects. pose proof (closeIfOpen_length R). lia.
Qed.

Lemma closeIfOpen_In (R : ring) (p : coordPair) : In p (closeIfOpen R) -> In p R.
Proof.
  rewrite closeIfOpen_spec. destruct (ringClosed R); [trivial|]. intros Hp.
  apply in_app_or in Hp. destruct Hp as [Hp|Hp]; [assumption|].
  destruct R as [|first R]; simpl in Hp; [contradiction|].
  destruct Hp as [<-|[]]. now left.
Qed.

Lemma simplifyRing_In (R : ring) (tol : float) (p : coordPair) :
  In p (simplifyRing R tol) -> In p R.
Proof.
  intros Hp. apply closeIfOpen_In.
  exact (Subseq_In _ _ _ p (simplifyRing_selects_closed R tol) Hp).
Qed.

(** X12: simplification only leaves points out: the ring [simplifyRing]
    returns is a selection, in order, of the points of the ring it was
    given, once that ring is re-closed (the given ring itself when it is
    closed); so it has no point that was not in the input and is never
    longer than the input by more than the closing point. *)
Theorem simplifyRing_selects (R : ring) (tol : float) :
  Subseq (simplifyRing R tol) (if ringClosed R then R else R ++ firstn 1 R) /\
  (forall p, In p (simplifyRing R tol) -> In p R) /\
  length (simplifyRing R tol) <= S (length R).
Proof.
  pose proof (simplifyRing_selects_closed R tol) as Hsub.
  rewrite closeIfOpen_spec in Hsub. split; [assumption|]. split.
  - intros p. apply simplifyRing_In.
  - apply Subseq_length in Hsub.
    destruct (ringClosed R); [lia|].
    rewrite length_app in Hsub. pose proof (firstn_le_length 1 R). lia.
Qed.

(** ** Numbers within bounds *)

Lemma SFleb_between (sl sx sh : spec_float) :
  SFnumber sl = true -> SFnumber sh = true ->
  SFleb sl sx = true -> SFleb sx sh = true -> SFnumber sx = true.
Proof.
  destruct sx as [s|s| |s m e]; try reflexivity;
    destruct sl as [sl'|sl'| |sl' ml el]; try discriminate;
    destruct sh as [sh'|sh'| |sh' mh eh]; try discriminate;
    destruct s; discriminate.
Qed.

Lemma SFeqb_refl (s : spec_float) : SFnumber s = true -> SFeqb s s = true.
Proof.
  destruct s as [sg|sg| |sg m e]; try discriminate; intros _; unfold SFeqb; simpl.
  - reflexivity.
  - destruct sg; rewrite Z.compare_refl, Pos.compare_cont_refl; reflexivity.
Qed.

Lemma is_finite_of_number (v : float) : SFnumber (Prim2SF v) = true -> is_finite v = true.
Proof.
  intros H. unfold is_finite, is_nan, is_infinity.
  rewrite !FloatAxioms.eqb_spec, FloatAxioms.abs_spec, (SFeqb_refl _ H). simpl.
  destruct (Prim2SF v) as [s|s| |s m e]; try discriminate; reflexivity.
Qed.

Lemma between_finite (lo hi v : float) :
  SFnumber (Prim2SF lo) = true -> SFnumber (Prim2SF hi) = true ->
  (lo <=? v)%float = true -> (v <=? hi)%float = true -> is_finite v = true.
Proof.
  intros Hlo Hhi H1 H2. rewrite FloatAxioms.leb_spec in H1, H2.
  apply is_finite_of_number. exact (SFleb_between _ _ _ Hlo Hhi H1 H2).
Qed.

Lemma ok_finite (lng lat : float) :
  ok lng lat = true -> is_finite lng = true /\ is_finite lat = true.
Proof.
  unfold ok. rewrite !andb_true_iff. intros [[[H1 H2] H3] H4]. split.
  - apply (between_finite (-180) 180); try assumption; reflexivity.
  - apply (between_finite (-90) 90); try assumption; reflexivity.
Qed.

Lemma validateBounds_pairs (g : geometry) :
  validateBounds g = true <-> Forall inBounds (pairsOf g).
Proof.
  unfold validateBounds. rewrite negb_true_iff.
  destruct g as [p|rings|polys]; simpl.
  - rewrite pairBad_false. split.
    + intros H. now constructor.
    + intros H. now inversion H.
  - rewrite existsb_false_Forall, Forall_concat.
    split; apply Forall_impl; intros r; apply ringBad_false.
  - rewrite existsb_false_Forall, !Forall_concat.
    split; apply Forall_impl; intros poly;
      rewrite existsb_false_Forall;
      apply Forall_impl; intros r; apply ringBad_false.
Qed.

(** X13: the bounds check passes finite numbers only: in a geometry that
    [coordsOutOfBounds] lets through no coordinate is [NaN] or infinite. *)
Theorem bounds_admit_only_finite (g : geometry) :
  validateBounds g = true ->
  Forall (fun p => is_finite (fst p) = true /\ is_finite (snd p) = true) (pairsOf g).
Proof.
  intros H. apply validateBounds_pairs in H. revert H. apply Forall_impl.
  intros p (H1 & H2 & H3 & H4). apply ok_finite. unfold ok.
  now rewrite H1, H2, H3, H4.
Qed.

Lemma bounds_admit_only_finite_witness :
  validateBounds (Point (91.25, 23.5)%float) = true /\
  Forall (fun p => is_finite (fst p) = true /\ is_finite (snd p) = true)
         (pairsOf (Point (91.25, 23.5)%float)).
Proof.
  split; [reflexivity|].
  exact (bounds_admit_only_finite (Point (91.25, 23.5)%float) eq_refl).
Defined.

(** ** The pipeline as a whole *)

(** The geometry the pipeline checks the bounds of, for an input the
    schema accepts and a stack that holds the recursion. *)
Lemma normalize_unfold (frames : nat) (g : geometry) :
  geometrySchema g = true ->
  Forall (fun r => length r < frames) (ringsOf g) ->
  normalize frames g =
    let g2 := simplifyGeometry
                match g with
                | Point p => Point p
                | Polygon rings => Polygon (map closeIfOpen rings)
                | MultiPolygon polys => MultiPolygon (map (map closeIfOpen) polys)
                end defaultToleranceDeg in
    if coordsOutOfBounds g2 then OutOfBounds else Accepted g2.
Proof.
  intros H Hlen. unfold normalize.
  pose proof (closeRings_total g H) as Hc. rewrite Hc.
  now rewrite simplifyGeometryOnStack_enough by now apply (closeRings_lengths frames g).
Qed.

(** What an accepted geometry is, whatever the stack. *)
Lemma normalize_accepted (frames : nat) (g g' : geometry) :
  geometrySchema g = true -> normalize frames g = Accepted g' ->
  g' = simplifyGeometry
         match g with
         | Point p => Point p
         | Polygon rings => Polygon (map closeIfOpen rings)
         | MultiPolygon polys => MultiPolygon (map (map closeIfOpen) polys)
         end defaultToleranceDeg /\
  coordsOutOfBounds g' = false.
Proof.
  intros H Hn. unfold normalize in Hn. rewrite closeRings_total in Hn by assumption.
  destruct (simplifyGeometryOnStack _ _ _) as [g2|] eqn:E; [|discriminate].
  apply simplifyGeometryOnStack_value in E. subst g2.
  destruct (coordsOutOfBounds _) eqn:Hb; [discriminate|].
  inversion Hn; subst. now split.
Qed.

Lemma pipeline_ring_In (r : ring) (tol : float) (p : coordPair) :
  In p (simplifyRing (closeIfOpen r) tol) -> In p r.
Proof. intros H. apply closeIfOpen_In. now apply simplifyRing_In in H. Qed.

Lemma pipeline_rings_In (rings : list ring) (tol : float) (p : coordPair) :
  In p (concat (map (fun r => simplifyRing r tol) (map closeIfOpen rings))) ->
  In p (concat rings).
Proof.
  rewrite map_map. intros H. apply in_concat in H. destruct H as (r' & Hr' & Hp).
  apply in_map_iff in Hr'. destruct Hr' as (r & <- & Hr).
  apply in_concat. exists r. split; [assumption|]. now apply pipeline_ring_In in Hp.
Qed.

(** The points of what the pipeline produces are points of its input. *)
Lemma pipeline_pairs_In (g : geometry) (tol : float) (p : coordPair) :
  In p (pairsOf (simplifyGeometry
                   match g with
                   | Point q => Point q
                   | Polygon rings => Polygon (map closeIfOpen rings)
                   | MultiPolygon polys => MultiPolygon (map (map closeIfOpen) polys)
                   end tol)) ->
  In p (pairsOf g).
Proof.
  destruct g as [q|rings|polys]; simpl.
  - trivial.
  - apply pipeline_rings_In.
  - intros H. apply in_concat in H. destruct H as (r' & Hr' & Hp).
    apply in_concat in Hr'. destruct Hr' as (poly' & Hpoly' & Hr').
    rewrite map_map in Hpoly'. apply in_map_iff in Hpoly'.
    destruct Hpoly' as (poly & <- & Hpoly).
    assert (Hin : In p (concat poly)).
    { apply (pipeline_rings_In poly tol). apply in_concat. now exists r'. }
    apply in_concat in Hin. destruct Hin as (r & Hr & Hpr).
    apply in_concat. exists r. split; [|assumption].
    apply in_concat. now exists poly.
Qed.

(** X14: the pipeline never rejects a geometry for a point it did not
    have: a geometry the schema accepts, all of whose coordinates are
    within bounds, is accepted, provided the call stack has room for more
    activations of [simplifyDP] than the longest ring has pairs (short of
    that the recursion may end in the [RangeError] and the answer is 500).
    Every pair of the accepted geometry is a pair of the input. *)
Theorem normalize_accepts_in_bounds (frames : nat) (g : geometry) :
  geometrySchema g = true -> validateBounds g = true ->
  Forall (fun r => length r < frames) (ringsOf g) ->
  exists g', normalize frames g = Accepted g' /\
             (forall p, In p (pairsOf g') -> In p (pairsOf g)).
Proof.
  intros Hs Hb Hlen. rewrite normalize_unfold by assumption. cbv zeta.
  set (g2 := simplifyGeometry _ _).
  assert (Hin : forall p, In p (pairsOf g2) -> In p (pairsOf g))
    by (intros p; apply pipeline_pairs_In).
  assert (Hok : validateBounds g2 = true).
  { apply validateBounds_pairs. apply validateBounds_pairs in Hb.
    rewrite Forall_forall in *. intros p Hp. apply Hb. now apply Hin. }
  unfold validateBounds in Hok. apply negb_true_iff in Hok. rewrite Hok.
  now exists g2.
Qed.

Lemma normalize_accepts_in_bounds_witness :
  geometrySchema (Polygon [[(0, 0); (1, 1); (2, 0); (3, 3); (0, 3)]%float]) = true /\
  validateBounds (Polygon [[(0, 0); (1, 1); (2, 0); (3, 3); (0, 3)]%float]) = true /\
  Forall (fun r => length r < 6)
         (ringsOf (Polygon [[(0, 0); (1, 1); (2, 0); (3, 3); (0, 3)]%float])) /\
  exists g', normalize 6 (Polygon [[(0, 0); (1, 1); (2, 0); (3, 3); (0, 3)]%float])
             = Accepted g' /\
             (forall p, In p (pairsOf g') ->
                        In p (pairsOf (Polygon [[(0, 0); (1, 1); (2, 0); (3, 3); (0, 3)]%float]))).
Proof.
  assert (Hlen : Forall (fun r => length r < 6)
                   (ringsOf (Polygon [[(0, 0); (1, 1); (2, 0); (3, 3); (0, 3)]%float]))).
  { constructor; [simpl; lia|constructor]. }
  split; [reflexivity|]. split; [reflexivity|]. split; [exact Hlen|].
  exact (normalize_accepts_in_bounds 6
           (Polygon [[(0, 0); (1, 1); (2, 0); (3, 3); (0, 3)]%float]) eq_refl eq_refl Hlen).
Defined.

Lemma ringSchema_pipeline (r : ring) (tol : float) :
  ringSchema r = true -> ringSchema (simplifyRing (closeIfOpen r) tol) = true.
Proof.
  intros H. pose proof (ringSchema_closeIfOpen r H) as H1.
  unfold ringSchema in *. apply andb_true_iff in H1. destruct H1 as [Hp Hn].
  apply andb_true_iff. split.
  - apply forallb_forall. intros p Hp'. apply simplifyRing_In in Hp'.
    now apply (proj1 (forallb_forall _ _) Hp).
  - apply Nat.leb_le. apply simplifyRing_length. now apply Nat.leb_le.
Qed.

(** X15: what the pipeline accepts is fit for storage: for an input the
    schema accepts, the accepted geometry is the closed and simplified
    input; the schema accepts it again (every ring has at least 4 pairs of
    numbers), every ring is closed, every coordinate is within bounds, and
    it has as many rings as the input. *)
Theorem normalize_accepted_wellformed (frames : nat) (g g' : geometry) :
  geometrySchema g = true -> normalize frames g = Accepted g' ->
  geometrySchema g' = true /\
  Forall (fun r => ringClosed r = true) (ringsOf g') /\
  Forall inBounds (pairsOf g') /\
  length (ringsOf g') = length (ringsOf g).
Proof.
  intros Hs Hn. apply normalize_accepted in Hn; [|assumption].
  destruct Hn as [-> Hb].
  assert (Hrings : forall rings, forallb ringSchema rings = true ->
            forallb ringSchema (map (fun r => simplifyRing r defaultToleranceDeg)
                                    (map closeIfOpen rings)) = true /\
            Forall (fun r => ringClosed r = true)
                   (map (fun r => simplifyRing r defaultToleranceDeg)
                        (map closeIfOpen rings))).
  { intros rings H. rewrite map_map. split.
    - apply forallb_forall. intros r' Hr'. apply in_map_iff in Hr'.
      destruct Hr' as (r & <- & Hr). apply ringSchema_pipeline.
      now apply (proj1 (forallb_forall _ _) H).
    - apply Forall_map, Forall_forall. intros r Hr.
      apply simplifyRing_preserves_closed, closeIfOpen_closed.
      now apply (proj1 (forallb_forall _ _) H). }
  split; [|split; [|split]].
  - destruct g as [p|rings|polys]; simpl in *.
    + assumption.
    + now apply Hrings.
    + rewrite map_map. apply forallb_forall. intros poly' Hp'.
      apply in_map_iff in Hp'. destruct Hp' as (poly & <- & Hp).
      apply Hrings. now apply (proj1 (forallb_forall _ _) Hs).
  - destruct g as [p|rings|polys]; simpl in *.
    + constructor.
    + now apply Hrings.
    + apply Forall_concat. rewrite map_map. apply Forall_map, Forall_forall.
      intros poly Hp. apply Hrings. now apply (proj1 (forallb_forall _ _) Hs).
  - apply validateBounds_pairs. unfold validateBounds. now rewrite Hb.
  - destruct g as [p|rings|polys]; simpl.
    + reflexivity.
    + now rewrite !length_map.
    + rewrite map_map. clear. induction polys as [|poly polys IH]; simpl; [reflexivity|].
      now rewrite !length_app, !length_map, IH.
Qed.

Lemma normalize_accepted_wellformed_witness :
  geometrySchema (Polygon [[(0, 0); (1, 0); (1, 1); (0, 1)]%float]) = true /\
  normalize 5 (Polygon [[(0, 0); (1, 0); (1, 1); (0, 1)]%float])
  = Accepted (Polygon [[(0, 0); (1, 0); (1, 1); (0, 1); (0, 0)]%float]) /\
  Forall (fun r => ringClosed r = true)
         (ringsOf (Polygon [[(0, 0); (1, 0); (1, 1); (0, 1); (0, 0)]%float])).
Proof.
  split; [reflexivity|]. split; [reflexivity|].
  exact (proj1 (proj2 (normalize_accepted_wellformed 5
                         (Polygon [[(0, 0); (1, 0); (1, 1); (0, 1)]%float])
                         (Polygon [[(0, 0); (1, 0); (1, 1); (0, 1); (0, 0)]%float])
                         eq_refl eq_refl))).
Defined.

(** X16: the map client closes the outer ring of a drawn polygon the way
    the server's [closeRings] closes a ring: where the server would push a
    copy of the first pair the client has pushed the first pair, and where
    the server would throw (an empty ring) the client leaves the polygon
    alone; the client looks at no other ring and no other geometry. *)
Theorem client_closes_like_server (g : geometry) :
  Client.closeOuterRing g =
    match g with
    | Polygon (ring :: holes) =>
        Polygon (match ensureClosed ring with
                 | Some closed => closed
                 | None => ring
                 end :: holes)
    | _ => g
    end.
Proof.
  destruct g as [p|[|ring holes]|polys]; try reflexivity.
  unfold Client.closeOuterRing, ensureClosed.
  destruct ring as [|first ring]; [reflexivity|].
  destruct (lastOpt (first :: ring)) as [last|]; [|reflexivity].
  destruct (strictNeq (fst first) (fst last) || strictNeq (snd first) (snd last));
    [|reflexivity].
  now destruct first.
Qed.

(* --------------------------------------------------------------------- *)
(** ** The recursion of [simplifyDP], once more                           *)
(* --------------------------------------------------------------------- *)

(** X17: the split point the loop of [simplifyDP] finds lies strictly
    between [first] and [last]: it is never the falsy index [0], so the
    test [&& index] drops no split point, and both recursive calls are on
    strictly narrower ranges. *)
Theorem split_index_is_interior (points : list coordPair) (undef : coordPair)
        (first last : nat) (sqTol maxSqDist : float) (index : nat) :
  scan points undef first last sqTol = (maxSqDist, Some index) ->
  first < index < last /\ truthy (Some index) = true /\
  index - first < last - first /\ last - index < last - first.
Proof.
  intros H. pose proof (scan_index_range _ _ _ _ _ H) as Hr.
  split; [assumption|]. split; [exact (scan_index_truthy _ _ _ _ _ H)|]. lia.
Qed.

Lemma split_index_is_interior_witness :
  scan [(0, 0); (1, 0); (2, 3); (3, 0); (4, 0)]%float (0, 0)%float 0 4 0%float
  = (9%float, Some 2) /\
  0 < 2 < 4.
Proof.
  split; [reflexivity|].
  exact (proj1 (split_index_is_interior
                  [(0, 0); (1, 0); (2, 3); (3, 0); (4, 0)]%float (0, 0)%float
                  0 4 0%float 9%float 2 eq_refl)).
Defined.

(** X18: the call [simplifyDP(ring, 0, ring.length - 1, ...)] that
    [simplifyRing] makes reads no element outside the ring and ends
    within any recursion budget of at least [ring.length - 1]: the value
    standing for an out-of-range read and the budget have no influence on
    what it pushes. *)
Theorem simplifyDP_top_call_is_safe (r : list coordPair) (d1 d2 : coordPair)
        (fuel1 fuel2 : nat) (sqTol : float) (s : list coordPair) :
  r <> [] -> length r - 1 <= fuel1 -> length r - 1 <= fuel2 ->
  simplifyDP r d1 fuel1 0 (length r - 1) sqTol s =
  simplifyDP r d2 fuel2 0 (length r - 1) sqTol s.
Proof.
  intros Hr H1 H2.
  rewrite (simplifyDP_reads_in_range r d1 d2).
  - apply simplifyDP_fuel_enough; lia.
  - destruct r; [congruence|simpl; lia].
Qed.

Lemma simplifyDP_top_call_is_safe_witness :
  [(0, 0); (1, 0); (2, 3); (3, 0); (4, 0)]%float <> [] /\
  simplifyDP [(0, 0); (1, 0); (2, 3); (3, 0); (4, 0)]%float (7, 7)%float 4 0 4 0%float []
  = simplifyDP [(0, 0); (1, 0); (2, 3); (3, 0); (4, 0)]%float (0, 0)%float 5 0 4 0%float [].
Proof.
  assert (H : [(0, 0); (1, 0); (2, 3); (3, 0); (4, 0)]%float <> []) by discriminate.
  split; [exact H|].
  exact (simplifyDP_top_call_is_safe
           [(0, 0); (1, 0); (2, 3); (3, 0); (4, 0)]%float (7, 7)%float (0, 0)%float
           4 5 0%float [] H (le_n 4) (le_S 4 4 (le_n 4))).
Defined.

(* --------------------------------------------------------------------- *)
(** ** The AOI listing route                                              *)
(* --------------------------------------------------------------------- *)

Import AoiList.

Lemma splitOn_nonempty (sep : ascii) (s : string) : splitOn sep s <> [].
Proof.
  destruct s as [|c s]; simpl; [discriminate|].
  destruct (Ascii.eqb c sep); [discriminate|].
  destruct (splitOn sep s); discriminate.
Qed.

(** [split] returns one piece more than the string has separators. *)
Lemma splitOn_length (sep : ascii) (s : string) :
  length (splitOn sep s) = S (countChar sep s).
Proof.
  induction s as [|c s IH]; simpl; [reflexivity|].
  destruct (Ascii.eqb c sep); simpl; [now rewrite IH|].
  pose proof (splitOn_nonempty sep s).
  destruct (splitOn sep s); [congruence|]. simpl in *. assumption.
Qed.

(** Joining the pieces with the separator gives the string back. *)
Lemma splitOn_concat (sep : ascii) (s : string) :
  String.concat (String sep EmptyString) (splitOn sep s) = s.
Proof.
  induction s as [|c s IH]; simpl; [reflexivity|].
  pose proof (splitOn_nonempty sep s) as Hne.
  destruct (Ascii.eqb_spec c sep) as [->|Hc].
  - destruct (splitOn sep s) as [|p ps]; [congruence|].
    simpl in *. now rewrite IH.
  - destruct (splitOn sep s) as [|p ps]; [congruence|].
    destruct ps as [|p' ps]; simpl in *; now rewrite <- IH.
Qed.

Section ListQueryFacts.
Variable Number : string -> float.

Lemma listQuery_nonempty (userId : string) (c : ascii) (b : string) :
  listQuery Number userId (Some (String c b)) =
    let parts := bboxParts Number (String c b) in
    if negb (Nat.eqb (length parts) 4) || existsb is_nan parts then InvalidBbox
    else match parts with
         | [minLng; minLat; maxLng; maxLat] =>
             Find [userId; "public"] (Some (bboxPolygon minLng minLat maxLng maxLat))
         | _ => InvalidBbox
         end.
Proof. reflexivity. Qed.

Lemma bboxParts_length (b : string) :
  length (bboxParts Number b) = S (countChar "," b).
Proof. unfold bboxParts. now rewrite length_map, splitOn_length. Qed.

Lemma bboxParts_numbers (b : string) :
  existsb is_nan (bboxParts Number b) = false <->
  Forall (fun piece => is_nan (Number piece) = false) (splitOn "," b).
Proof. unfold bboxParts. now rewrite existsb_false_Forall, Forall_map. Qed.

(** X19: [GET /aoi] answers 400 to a non-empty [bbox] unless it has
    exactly three commas and each of its four pieces converts to a number
    other than [NaN]; an absent or empty [bbox] is never refused. *)
Theorem listQuery_refuses_iff (userId : string) (bbox : option string) :
  listQuery Number userId bbox = InvalidBbox <->
  exists b, bbox = Some b /\ b <> EmptyString /\
            ~ (countChar "," b = 3 /\
               Forall (fun piece => is_nan (Number piece) = false) (splitOn "," b)).
Proof.
  destruct bbox as [b|].
  2:{ simpl. split; [discriminate|]. intros (b & H & _). discriminate. }
  destruct b as [|c b].
  { simpl. split; [discriminate|]. intros (b & [= <-] & H & _). congruence. }
  rewrite listQuery_nonempty. cbv zeta.
  pose proof (bboxParts_length (String c b)) as Hlen.
  pose proof (bboxParts_numbers (String c b)) as Hnan.
  remember (String c b) as s eqn:Hs.
  assert (Hne : s <> EmptyString) by (subst; discriminate). clear Hs.
  remember (bboxParts Number s) as parts eqn:Hparts. clear Hparts.
  destruct (Nat.eqb_spec (length parts) 4) as [H4|H4]; cbn [negb orb].
  - destruct (existsb is_nan parts) eqn:E.
    + split; [|reflexivity]. intros _. exists s. split; [reflexivity|].
      split; [assumption|]. intros [_ H]. apply Hnan in H. discriminate.
    + destruct parts as [|p1 [|p2 [|p3 [|p4 [|p5 l]]]]]; try discriminate.
      split; [discriminate|]. intros (b0 & [= <-] & _ & H). exfalso. apply H.
      split; [simpl in Hlen; lia|]. now apply Hnan.
  - split; [|reflexivity]. intros _. exists s. split; [reflexivity|].
    split; [assumption|]. intros [H _]. lia.
Qed.

(** X20: when [GET /aoi] goes on to query the store it asks for the AOIs
    of the user and of ["public"], and the polygon it builds from [bbox]
    is one closed ring of 5 pairs of numbers: the schema of the creation
    route accepts it and [closeRings] leaves it as it is. *)
Theorem listQuery_polygon_wellformed (userId : string) (bbox : option string)
        (userIds : list string) (g : geometry) :
  listQuery Number userId bbox = Find userIds (Some g) ->
  userIds = [userId; "public"] /\
  (exists minLng minLat maxLng maxLat,
      g = Polygon [[(minLng, minLat); (maxLng, minLat); (maxLng, maxLat);
                    (minLng, maxLat); (minLng, minLat)]]) /\
  geometrySchema g = true /\
  closeRings g = Some g.
Proof.
  destruct bbox as [[|c b]|]; try discriminate.
  rewrite listQuery_nonempty. cbv zeta.
  remember (bboxParts Number (String c b)) as parts eqn:Hparts. clear Hparts.
  destruct (negb (Nat.eqb (length parts) 4)); cbn [orb]; [discriminate|].
  destruct (existsb is_nan parts) eqn:E; [discriminate|].
  destruct parts as [|minLng [|minLat [|maxLng [|maxLat [|e l]]]]]; try discriminate.
  intros [= <- <-]. split; [reflexivity|].
  split; [now exists minLng, minLat, maxLng, maxLat|].
  simpl in E.
  apply orb_false_iff in E. destruct E as [Ha E].
  apply orb_false_iff in E. destruct E as [Hb E].
  apply orb_false_iff in E. destruct E as [Hc E].
  apply orb_false_iff in E. destruct E as [Hd _].
  assert (Hs : geometrySchema (bboxPolygon minLng minLat maxLng maxLat) = true).
  { unfold bboxPolygon, geometrySchema, ringSchema, coordPairSchema, zNumber.
    cbn [forallb fst snd length]. rewrite Ha, Hb, Hc, Hd. reflexivity. }
  split; [assumption|].
  rewrite closeRings_total by assumption. unfold bboxPolygon.
  rewrite (map_cons closeIfOpen), closeIfOpen_spec.
  assert (Hclosed : ringClosed [(minLng, minLat); (maxLng, minLat); (maxLng, maxLat);
                                (minLng, maxLat); (minLng, minLat)] = true).
  { apply samePair_refl. unfold coordPairSchema, zNumber. cbn [fst snd].
    now rewrite Ha, Hb. }
  now rewrite Hclosed.
Qed.

End ListQueryFacts.

Lemma listQuery_polygon_wellformed_witness :
  listQuery (fun _ => 1%float) "user_1" (Some "a,b,c,d")
  = Find ["user_1"; "public"] (Some (bboxPolygon 1 1 1 1)) /\
  closeRings (bboxPolygon 1 1 1 1) = Some (bboxPolygon 1 1 1 1).
Proof.
  split; [reflexivity|].
  exact (proj2 (proj2 (proj2 (listQuery_polygon_wellformed (fun _ => 1%float)
            "user_1" (Some "a,b,c,d") _ _ eq_refl)))).
Defined.

(* --------------------------------------------------------------------- *)
(** ** The authentication middleware                                      *)
(* --------------------------------------------------------------------- *)

Import Auth.

(** [startsWith] and [substring] take a header apart without loss. *)
Lemma prefix_dropChars (p s : string) :
  prefix p s = true -> s = (p ++ dropChars (String.length p) s)%string.
Proof.
  revert s. induction p as [|a p IH]; intros s; [reflexivity|].
  destruct s as [|b s]; simpl; [discriminate|].
  destruct (ascii_dec a b) as [Hab|Hab]; [subst b|discriminate].
  intros H. f_equal. now apply IH.
Qed.

Lemma prefix_append (p s : string) : prefix p (p ++ s) = true.
Proof.
  induction p as [|a p IH]; simpl; [now destruct s|].
  destruct (ascii_dec a a); [assumption|congruence].
Qed.

Lemma dropChars_append (p s : string) : dropChars (String.length p) (p ++ s) = s.
Proof. induction p as [|a p IH]; simpl; [now destruct s|assumption]. Qed.

(** What the middleware does with a header, in terms of the token. *)
Lemma requireAuth_bearer (e : env) (now : N) (token : string)
      (verifyToken : string -> verification) :
  requireAuth e now (Some ("Bearer " ++ token)%string) verifyToken =
    match token with
    | EmptyString => Status401 "Empty token" None
    | _ =>
        if development e || negb (jwtKeySet e)
        then Next (devUserId token now)
        else match verifyToken token with
             | VerifyThrows err =>
                 Status401 "Authentication failed"
                           (Some (orElse (message err) "Unknown error"))
             | Resolves sub => Next sub
             | Rejects jwtError =>
                 if development e
                 then Next ("user_" ++ substring 0 8 token)%string
                 else Status401 "Invalid or expired token" (Some (message jwtError))
             end
    end.
Proof.
  pose proof (prefix_append "Bearer " token) as H.
  unfold requireAuth.
  destruct ("Bearer " ++ token)%string as [|c header] eqn:E; [discriminate|].
  rewrite H. cbn [negb]. rewrite <- E. reflexivity.
Qed.

Lemma requireAuth_not_bearer (e : env) (now : N) (authHeader : option string)
      (verifyToken : string -> verification) :
  (forall token, authHeader <> Some ("Bearer " ++ token)%string) ->
  requireAuth e now authHeader verifyToken =
  Status401 "Missing or invalid authorization header" None.
Proof.
  intros H. destruct authHeader as [header|]; [|reflexivity].
  destruct header as [|c header]; [reflexivity|].
  unfold requireAuth.
  destruct (prefix "Bearer " (String c header)) eqn:E; [|reflexivity].
  apply prefix_dropChars in E. destruct (H _ (f_equal Some E)).
Qed.

(** X21: [requireAuth] calls [next()] only for a header that is
    ["Bearer "] followed by a non-empty token; every other request gets a
    401 before the token is looked at. *)
Theorem requireAuth_admits_only_bearer (e : env) (now : N) (authHeader : option string)
        (verifyToken : string -> verification) (userId : string) :
  requireAuth e now authHeader verifyToken = Next userId ->
  exists token, authHeader = Some ("Bearer " ++ token)%string /\ token <> EmptyString.
Proof.
  intros H.
  destruct authHeader as [header|]; [|discriminate].
  destruct header as [|c header]; [discriminate|].
  destruct (prefix "Bearer " (String c header)) eqn:E.
  - apply prefix_dropChars in E. rewrite E in H |- *.
    exists (dropChars (String.length "Bearer ") (String c header)).
    split; [reflexivity|]. intros Hempty.
    rewrite requireAuth_bearer, Hempty in H. discriminate.
  - unfold requireAuth in H. rewrite E in H. discriminate.
Qed.

Lemma requireAuth_admits_only_bearer_witness :
  requireAuth {| development := false; jwtKeySet := true |} 1700000000000
              (Some "Bearer abc.def.ghi") (fun _ => Resolves "user_2x") = Next "user_2x" /\
  exists token, Some "Bearer abc.def.ghi" = Some ("Bearer " ++ token)%string /\
                token <> EmptyString.
Proof.
  split; [reflexivity|].
  exact (requireAuth_admits_only_bearer
           {| development := false; jwtKeySet := true |} 1700000000000
           (Some "Bearer abc.def.ghi") (fun _ => Resolves "user_2x") "user_2x" eq_refl).
Defined.

(** X22: what [requireAuth] does with a non-empty bearer token, in
    every environment.  In development, or without [CLERK_JWT_KEY], the
    token is admitted at once under the time-stamped development id.
    Otherwise it is admitted exactly when [verifyToken] resolves, under
    the [sub] it resolves with, and refused with 401 when [verifyToken]
    throws or rejects.  So every admission is one of these two: the
    development fallback inside the [catch], which would admit under the
    id without the time, never runs, since development mode does not
    reach [verifyToken]. *)
Theorem requireAuth_follows_verification (e : env) (now : N) (token : string)
        (verifyToken : string -> verification) :
  token <> EmptyString ->
  requireAuth e now (Some ("Bearer " ++ token)%string) verifyToken =
    (if development e || negb (jwtKeySet e)
     then Next (devUserId token now)
     else match verifyToken token with
          | Resolves sub => Next sub
          | VerifyThrows err =>
              Status401 "Authentication failed"
                        (Some (orElse (message err) "Unknown error"))
          | Rejects err => Status401 "Invalid or expired token" (Some (message err))
          end) /\
  (forall userId,
      requireAuth e now (Some ("Bearer " ++ token)%string) verifyToken = Next userId ->
      development e || negb (jwtKeySet e) = true /\ userId = devUserId token now \/
      development e || negb (jwtKeySet e) = false /\ verifyToken token = Resolves userId).
Proof.
  intros Htoken. rewrite requireAuth_bearer.
  destruct token as [|ch token]; [congruence|].
  destruct (development e) eqn:Hdev; simpl.
  - split; [reflexivity|]. intros userId [= <-]. now left.
  - destruct (jwtKeySet e); simpl.
    + split; [now destruct (verifyToken _)|].
      intros userId H. right. split; [reflexivity|].
      destruct (verifyToken _); congruence.
    + split; [reflexivity|]. intros userId [= <-]. now left.
Qed.

Lemma requireAuth_follows_verification_witness :
  "abc" <> EmptyString /\
  requireAuth {| development := true; jwtKeySet := true |} 5 (Some "Bearer abc")
              (fun _ => Rejects {| message := "jwt expired"; asString := "Error: jwt expired" |})
  = Next "user_abc_5" /\
  requireAuth {| development := false; jwtKeySet := true |} 5 (Some "Bearer abc")
              (fun _ => Rejects {| message := "jwt expired"; asString := "Error: jwt expired" |})
  = Status401 "Invalid or expired token" (Some "jwt expired").
Proof.
  assert (H : "abc" <> EmptyString) by discriminate.
  split; [exact H|]. split.
  - exact (proj1 (requireAuth_follows_verification
             {| development := true; jwtKeySet := true |} 5 "abc"
             (fun _ => Rejects {| message := "jwt expired"; asString := "Error: jwt expired" |})
             H)).
  - exact (proj1 (requireAuth_follows_verification
             {| development := false; jwtKeySet := true |} 5 "abc"
             (fun _ => Rejects {| message := "jwt expired"; asString := "Error: jwt expired" |})
             H)).
Defined.

(** X23: in development, or whenever [CLERK_JWT_KEY] is not set, every
    non-empty bearer token is admitted without [verifyToken] being
    consulted, under a user id made of the first 8 characters of the token
    and the time of the request. *)
Theorem requireAuth_without_key_admits_any_token (e : env) (now : N) (token : string)
        (verifyToken : string -> verification) :
  token <> EmptyString ->
  development e || negb (jwtKeySet e) = true ->
  requireAuth e now (Some ("Bearer " ++ token)%string) verifyToken
  = Next ("user_" ++ substring 0 8 token ++ "_" ++ numToString now)%string.
Proof.
  intros Htoken Hdev. rewrite requireAuth_bearer, Hdev.
  destruct token; [congruence|reflexivity].
Qed.

Lemma requireAuth_without_key_admits_any_token_witness :
  "not-a-jwt-at-all" <> EmptyString /\
  requireAuth {| development := false; jwtKeySet := false |} 1700000000000
              (Some "Bearer not-a-jwt-at-all")
              (fun _ => Rejects {| message := "invalid"; asString := "Error: invalid" |})
  = Next "user_not-a-jw_1700000000000".
Proof.
  assert (H : "not-a-jwt-at-all" <> EmptyString) by discriminate.
  split; [exact H|].
  exact (requireAuth_without_key_admits_any_token
           {| development := false; jwtKeySet := false |} 1700000000000
           "not-a-jwt-at-all"
           (fun _ => Rejects {| message := "invalid"; asString := "Error: invalid" |})
           H eq_refl).
Defined.

(** X24: [requireAuth] is the stricter of the two middlewares: whatever
    it admits [getAuthToken] admits under the same user id; the converse
    fails only for the empty token, which [getAuthToken] does not check
    for. *)
Theorem requireAuth_stricter_than_getAuthToken (e : env) (now : N)
        (authHeader : option string) (verifyToken : string -> verification) :
  (forall userId, requireAuth e now authHeader verifyToken = Next userId ->
                  getAuthToken e now authHeader verifyToken = Next userId) /\
  (forall userId, getAuthToken e now authHeader verifyToken = Next userId ->
                  requireAuth e now authHeader verifyToken = Next userId \/
                  authHeader = Some "Bearer ").
Proof.
  destruct authHeader as [header|]; [|split; intros; [assumption|now left]].
  destruct header as [|c header]; [split; intros; [assumption|now left]|].
  unfold requireAuth, getAuthToken.
  destruct (prefix "Bearer " (String c header)) eqn:E;
    [|split; intros; [assumption|now left]].
  cbn [negb]. apply prefix_dropChars in E.
  remember (dropChars 7 (String c header)) as token eqn:Ht.
  change (String.length "Bearer ") with 7 in E. rewrite <- Ht in E.
  destruct token as [|t token].
  - split; [discriminate|]. intros userId _. right. now rewrite E.
  - destruct (development e) eqn:Hdev; cbn [orb].
    + split; intros; [assumption|now left].
    + destruct (negb (jwtKeySet e)); [split; intros; [assumption|now left]|].
      destruct (verifyToken (String t token)); split; intros; try discriminate;
        try assumption; now left.
Qed.

(* --------------------------------------------------------------------- *)
(** ** The cache over time                                                *)
(* --------------------------------------------------------------------- *)

Import Server.

Lemma step_NoDup (c : jsMap) (ev : event) :
  NoDup (keys c) -> NoDup (keys (step c ev)).
Proof.
  destruct ev as [now key body|now]; simpl.
  - apply cachePut_NoDup.
  - apply cleanupCache_NoDup.
Qed.

Lemma run_NoDup (events : list event) (c : jsMap) :
  NoDup (keys c) -> NoDup (keys (run events c)).
Proof.
  unfold run. revert c. induction events as [|ev events IH]; intros c H; simpl;
    [assumption|].
  apply IH. now apply step_NoDup.
Qed.

Lemma run_stores_size (stores : list event) (c : jsMap) :
  forallb isStore stores = true ->
  mapSize (run stores c) <= mapSize c + length stores.
Proof.
  unfold run. revert c. induction stores as [|ev stores IH]; intros c H; simpl;
    [lia|].
  apply andb_true_iff in H. destruct H as [Hev H].
  destruct ev as [now key body|now]; [|discriminate]. simpl.
  specialize (IH (cachePut now key body c) H).
  unfold cachePut in *. rewrite mapSize_mapSet in IH.
  destruct (mapGet key c); lia.
Qed.

(** X25: whatever the order in which requests and timer runs interleave,
    the cache keeps one entry per key, and at any moment after a cleanup
    pass it holds at most [MAX_CACHE_SIZE] entries plus one for each store
    since the last pass. *)
Theorem size_between_sweeps (before stores : list event) (now : Z) (c : jsMap) :
  NoDup (keys c) -> forallb isStore stores = true ->
  NoDup (keys (run (before ++ Sweep now :: stores) c)) /\
  mapSize (run (before ++ Sweep now :: stores) c) <= MAX_CACHE_SIZE + length stores.
Proof.
  intros Hc Hstores. split; [now apply run_NoDup|].
  assert (E : run (before ++ Sweep now :: stores) c
              = run stores (cleanupCache now (run before c)))
    by (unfold run; rewrite fold_left_app; reflexivity).
  rewrite E.
  pose proof (run_stores_size stores (cleanupCache now (run before c)) Hstores) as H.
  pose proof (@cleanupCache_size now (run before c) (run_NoDup before c Hc)) as Hs.
  lia.
Qed.

Lemma size_between_sweeps_witness :
  NoDup (keys []) /\
  forallb isStore [Store 12 "k2" "{}"] = true /\
  mapSize (run ([Store 5 "k1" "{}"] ++ Sweep 10 :: [Store 12 "k2" "{}"]) [])
  <= MAX_CACHE_SIZE + length [Store 12 "k2" "{}"].
Proof.
  split; [constructor|]. split; [reflexivity|].
  exact (proj2 (size_between_sweeps [Store 5 "k1" "{}"] [Store 12 "k2" "{}"] 10 []
                  (NoDup_nil _) eq_refl)).
Defined.

(** The bounds are checked on the simplified geometry: a point out of
    bounds that the simplification leaves out does not get the geometry
    refused (what is accepted is within bounds all the same). *)
Remark normalize_checks_after_simplifying :
  validateBounds
    (Polygon [[(0, 0); (180, -1); (180.000030517578125, 0); (180, 1); (0, 0)]%float])
  = false /\
  normalize 5
    (Polygon [[(0, 0); (180, -1); (180.000030517578125, 0); (180, 1); (0, 0)]%float])
  = Accepted (Polygon [[(0, 0); (180, -1); (180, 1); (0, 0)]%float]).
Proof. split; reflexivity. Qed.
